(** * The Prompter scheduler: a shallow embedding

    The class [Prompter] paces calls to a rate-limited runner.  Its state is
    a JavaScript object mutated by the callbacks of three interval timers
    and by the continuations of two asynchronous calls ([database.load] and
    [runner.chat]).  The embedding keeps the fields of the class under
    their own names and turns each method into a function on the state.

    - The [queue] array has the read and write behaviour of a JavaScript
      array: a read out of range yields [undefined], a write out of range
      extends the array.
    - Prompt objects live in a store and are addressed by reference: the
      same object may sit in several slots and in a pending send, and
      [schedule_prompt] updates its [retries] in place.
    - An [async] callback is cut at its [await]: the part before it and the
      part after it are two functions, and a run is a sequence of events
      (a timer fires, an awaited call settles) applied to the state.
    - Numbers that the source keeps as floating-point values and that are
      not integers ([step_size_float], the jitter, the power of the
      backoff) are exact rationals; the rounding of floating-point
      operations is not modelled. *)

From Stdlib Require Import ZArith QArith Qround Qminmax String List Lia Bool.
From stdpp Require Import base list.
Import ListNotations.

Local Open Scope Z_scope.

(** ** Constants *)

Definition STEP_SIZE_MIN : Q := 1.
Definition STEP_SIZE_MAX : Q := 32.

Definition STEP_POSITIVE_AMOUNT : Q := 1 # 10.
Definition STEP_NEGATIVE_AMOUNT : Q := - (5 # 10).

Definition RETRY_COUNT : Z := 10.
Definition RETRY_MIN : Z := 1.
Definition RETRY_MULTIPLIER : Q := 185 # 100.
Definition RETRY_ERRORS : list string :=
  ["408"; "429"; "503"; "529"]%string.

(** ** Data *)

Record Prompt := mkPrompt {
  id : Z;
  system : string;
  user : string;
  retries : Z;
}.

Record Data := mkData {
  done : bool;
  data : list Prompt;
}.

Record Model := mkModel {
  name : string;
  rpm : nat;
  max_tokens : Z;
}.

(** What [runner.chat] may throw: a [NetworkError] (a message and a code) or
    any other value, of which only the message is kept. *)
Inductive error :=
  | NetworkError (message : string) (code : string)
  | OtherError (message : string).

Definition error_message (e : error) : string :=
  match e with
  | NetworkError m _ => m
  | OtherError m => m
  end.

(** How the promise returned by [runner.chat] settles. *)
Inductive outcome :=
  | Fulfilled (output : string)
  | Rejected (e : error).

(** Prompt objects are addressed by reference. *)
Abbreviation ref := nat (only parsing).

(** The values an element of [queue] can hold at run time.  The declared
    element type is [Prompt | null]; [undefined] appears when an index out
    of range is read. *)
Inductive value :=
  | VNull
  | VUndefined
  | VPrompt (r : ref).

Definition is_null (v : value) : bool :=
  match v with VNull => true | _ => false end.

(** [a[i]] on a JavaScript array. *)
Definition aget (a : list value) (i : nat) : value :=
  default VUndefined (a !! i).

(** [a[i] = v] on a JavaScript array: beyond the end the array grows, and
    the indices in between read as [undefined]. *)
Definition aset (a : list value) (i : nat) (v : value) : list value :=
  if (i <? length a)%nat then <[i:=v]> a
  else a ++ replicate (i - length a) VUndefined ++ [v].

(** The lines written to the console. *)
Inductive report :=
  | CouldntFindClosestIndex (v : value)
  | ReachedMaximumRetries (v : value)
  | UnknownNetworkError (v : value) (e : error)
  | UnknownError (v : value) (e : error).

(** A field holding the handle of an interval timer.  [stored] tells whether
    the handle kept in the field names a live timer, [live] counts the live
    timers created through the field ([setInterval] overwrites the handle
    without stopping the previous timer). *)
Record interval := mkInterval {
  stored : bool;
  live : nat;
}.

Definition no_interval : interval := mkInterval false 0.

Definition setInterval (t : interval) : interval :=
  mkInterval true (S (live t)).

Definition clearInterval (t : interval) : interval :=
  if stored t then mkInterval false (pred (live t)) else t.

Definition fires (t : interval) : bool := (0 <? live t)%nat.

(** ** The state of a [Prompter] *)

Record Prompter := mkPrompter {
  (* the prompt objects, by reference *)
  objs : list Prompt;
  (* fields of the class *)
  queue : list value;
  queue_size : nat;
  queue_count : Z;
  step_index : Z;
  step_size_float : Q;
  step_size_int : Z;
  load_interval : interval;
  load_cursor : Z;
  load_limit : Z;
  load_threshold : Z;
  chat_interval : interval;
  chat_active : Z;
  wait_interval : interval;
  (* abort_controller.signal.aborted *)
  aborted : bool;
  (* the promise returned by start(): pending, or settled with a value *)
  completion : option bool;
  (* console.log output, oldest first *)
  console : list report;
  (* calls of database.load that have not returned yet *)
  loading : nat;
  (* arguments of the calls of send_prompt that await runner.chat *)
  sending : list value;
  (* chat callbacks whose send_prompt returned and that have not resumed *)
  resuming : nat;
}.

Definition with_objs (x : list Prompt) (s : Prompter) : Prompter :=
  mkPrompter x (queue s) (queue_size s) (queue_count s) (step_index s)
    (step_size_float s) (step_size_int s) (load_interval s) (load_cursor s)
    (load_limit s) (load_threshold s) (chat_interval s) (chat_active s)
    (wait_interval s) (aborted s) (completion s) (console s) (loading s)
    (sending s) (resuming s).

Definition with_queue (x : list value) (s : Prompter) : Prompter :=
  mkPrompter (objs s) x (queue_size s) (queue_count s) (step_index s)
    (step_size_float s) (step_size_int s) (load_interval s) (load_cursor s)
    (load_limit s) (load_threshold s) (chat_interval s) (chat_active s)
    (wait_interval s) (aborted s) (completion s) (console s) (loading s)
    (sending s) (resuming s).

Definition with_queue_count (x : Z) (s : Prompter) : Prompter :=
  mkPrompter (objs s) (queue s) (queue_size s) x (step_index s)
    (step_size_float s) (step_size_int s) (load_interval s) (load_cursor s)
    (load_limit s) (load_threshold s) (chat_interval s) (chat_active s)
    (wait_interval s) (aborted s) (completion s) (console s) (loading s)
    (sending s) (resuming s).

Definition with_step_size_float (x : Q) (s : Prompter) : Prompter :=
  mkPrompter (objs s) (queue s) (queue_size s) (queue_count s) (step_index s)
    x (step_size_int s) (load_interval s) (load_cursor s)
    (load_limit s) (load_threshold s) (chat_interval s) (chat_active s)
    (wait_interval s) (aborted s) (completion s) (console s) (loading s)
    (sending s) (resuming s).

Definition with_step_size_int (x : Z) (s : Prompter) : Prompter :=
  mkPrompter (objs s) (queue s) (queue_size s) (queue_count s) (step_index s)
    (step_size_float s) x (load_interval s) (load_cursor s)
    (load_limit s) (load_threshold s) (chat_interval s) (chat_active s)
    (wait_interval s) (aborted s) (completion s) (console s) (loading s)
    (sending s) (resuming s).

Definition with_load_interval (x : interval) (s : Prompter) : Prompter :=
  mkPrompter (objs s) (queue s) (queue_size s) (queue_count s) (step_index s)
    (step_size_float s) (step_size_int s) x (load_cursor s)
    (load_limit s) (load_threshold s) (chat_interval s) (chat_active s)
    (wait_interval s) (aborted s) (completion s) (console s) (loading s)
    (sending s) (resuming s).

Definition with_load_cursor (x : Z) (s : Prompter) : Prompter :=
  mkPrompter (objs s) (queue s) (queue_size s) (queue_count s) (step_index s)
    (step_size_float s) (step_size_int s) (load_interval s) x
    (load_limit s) (load_threshold s) (chat_interval s) (chat_active s)
    (wait_interval s) (aborted s) (completion s) (console s) (loading s)
    (sending s) (resuming s).

Definition with_chat_interval (x : interval) (s : Prompter) : Prompter :=
  mkPrompter (objs s) (queue s) (queue_size s) (queue_count s) (step_index s)
    (step_size_float s) (step_size_int s) (load_interval s) (load_cursor s)
    (load_limit s) (load_threshold s) x (chat_active s)
    (wait_interval s) (aborted s) (completion s) (console s) (loading s)
    (sending s) (resuming s).

Definition with_chat_active (x : Z) (s : Prompter) : Prompter :=
  mkPrompter (objs s) (queue s) (queue_size s) (queue_count s) (step_index s)
    (step_size_float s) (step_size_int s) (load_interval s) (load_cursor s)
    (load_limit s) (load_threshold s) (chat_interval s) x
    (wait_interval s) (aborted s) (completion s) (console s) (loading s)
    (sending s) (resuming s).

Definition with_wait_interval (x : interval) (s : Prompter) : Prompter :=
  mkPrompter (objs s) (queue s) (queue_size s) (queue_count s) (step_index s)
    (step_size_float s) (step_size_int s) (load_interval s) (load_cursor s)
    (load_limit s) (load_threshold s) (chat_interval s) (chat_active s)
    x (aborted s) (completion s) (console s) (loading s)
    (sending s) (resuming s).

Definition with_aborted (x : bool) (s : Prompter) : Prompter :=
  mkPrompter (objs s) (queue s) (queue_size s) (queue_count s) (step_index s)
    (step_size_float s) (step_size_int s) (load_interval s) (load_cursor s)
    (load_limit s) (load_threshold s) (chat_interval s) (chat_active s)
    (wait_interval s) x (completion s) (console s) (loading s)
    (sending s) (resuming s).

Definition with_completion (x : option bool) (s : Prompter) : Prompter :=
  mkPrompter (objs s) (queue s) (queue_size s) (queue_count s) (step_index s)
    (step_size_float s) (step_size_int s) (load_interval s) (load_cursor s)
    (load_limit s) (load_threshold s) (chat_interval s) (chat_active s)
    (wait_interval s) (aborted s) x (console s) (loading s)
    (sending s) (resuming s).

Definition with_console (x : list report) (s : Prompter) : Prompter :=
  mkPrompter (objs s) (queue s) (queue_size s) (queue_count s) (step_index s)
    (step_size_float s) (step_size_int s) (load_interval s) (load_cursor s)
    (load_limit s) (load_threshold s) (chat_interval s) (chat_active s)
    (wait_interval s) (aborted s) (completion s) x (loading s)
    (sending s) (resuming s).

Definition with_loading (x : nat) (s : Prompter) : Prompter :=
  mkPrompter (objs s) (queue s) (queue_size s) (queue_count s) (step_index s)
    (step_size_float s) (step_size_int s) (load_interval s) (load_cursor s)
    (load_limit s) (load_threshold s) (chat_interval s) (chat_active s)
    (wait_interval s) (aborted s) (completion s) (console s) x
    (sending s) (resuming s).

Definition with_sending (x : list value) (s : Prompter) : Prompter :=
  mkPrompter (objs s) (queue s) (queue_size s) (queue_count s) (step_index s)
    (step_size_float s) (step_size_int s) (load_interval s) (load_cursor s)
    (load_limit s) (load_threshold s) (chat_interval s) (chat_active s)
    (wait_interval s) (aborted s) (completion s) (console s) (loading s)
    x (resuming s).

Definition with_resuming (x : nat) (s : Prompter) : Prompter :=
  mkPrompter (objs s) (queue s) (queue_size s) (queue_count s) (step_index s)
    (step_size_float s) (step_size_int s) (load_interval s) (load_cursor s)
    (load_limit s) (load_threshold s) (chat_interval s) (chat_active s)
    (wait_interval s) (aborted s) (completion s) (console s) (loading s)
    (sending s) x.

(** [console.log] *)
Definition log (r : report) (s : Prompter) : Prompter :=
  with_console (console s ++ [r]) s.

(** Calling the [resolve] function of the promise of [start]: only the first
    call settles it. *)
Definition resolve (b : bool) (s : Prompter) : Prompter :=
  match completion s with
  | Some _ => s
  | None => with_completion (Some b) s
  end.

(** ** The constructor *)

Definition constructor (model : Model) : Prompter :=
  let queue_size := (rpm model * 2)%nat in
  let load_limit := Z.of_nat (rpm model) / 4 in
  {| objs := [];
     queue := replicate queue_size VNull;
     queue_size := queue_size;
     queue_count := 0;
     step_index := 0;
     step_size_float := 0;
     step_size_int := 0;
     load_interval := no_interval;
     load_cursor := 0;
     load_limit := load_limit;
     load_threshold := (load_limit + 1) / 2;   (* Math.ceil(load_limit / 2) *)
     chat_interval := no_interval;
     chat_active := 0;
     wait_interval := no_interval;
     aborted := false;
     completion := None;
     console := [];
     loading := 0;
     sending := [];
     resuming := 0 |}.

(** ** Numeric helpers *)

Definition Qltb (x y : Q) : bool := negb (Qle_bool y x).

(** [Math.round]: the nearest integer, halves upwards. *)
Definition Math_round (x : Q) : Z := Qfloor (x + (1 # 2)).

(** [search_floor fuel k ok] is the last [k' >= k] reached while [ok] holds
    of the successor, within [fuel] steps. *)
Fixpoint search_floor (fuel : nat) (k : Z) (ok : Z -> bool) : Z :=
  match fuel with
  | O => k
  | S fuel' => if ok (k + 1) then search_floor fuel' (k + 1) ok else k
  end.

(** [Math.floor(base ** e * factor)] for an integer [base >= 1], a rational
    exponent [e > 0] and a rational [factor >= 0], on exact numbers: with
    [e = a/b] and [factor = n/d] in lowest terms, the largest [k] with
    [(k * d)^b <= base^a * n^b]. *)
Definition pow_mul_floor (base : Z) (e factor : Q) : Z :=
  let a := Qnum (Qred e) in
  let b := Zpos (Qden (Qred e)) in
  let n := Qnum (Qred factor) in
  let d := Zpos (Qden (Qred factor)) in
  search_floor (Z.to_nat (base ^ Qceiling e * Qceiling factor)) 0
    (fun k => (k * d) ^ b <=? base ^ a * n ^ b).

(** The jitter [0.75 + Math.random() * 0.25]. *)
Definition jitter (random : Q) : Q := (75 # 100) + random * (25 # 100).

(** The delay of the backoff, before it is clamped.  [retries] counts the
    retries of a prompt and is not negative.  Two things are outside this
    definition: for [retries < -1] the power of the source is [NaN], with
    which the search returns [null]; and the source rounds the jitter and
    the product to doubles, so that a jitter within a rounding step of 1
    can give a delay larger by one. *)
Definition retry_delay (retries : Z) (random : Q) : Z :=
  pow_mul_floor (retries + RETRY_MIN) RETRY_MULTIPLIER (jitter random).

(** ** The methods of the class *)

Definition setup_wait_interval (s : Prompter) : Prompter :=
  with_wait_interval (setInterval (wait_interval s)) s.

(** The callback of the wait interval. *)
Definition wait_tick (s : Prompter) : Prompter :=
  if chat_active s =? 0
  then resolve true (with_wait_interval (clearInterval (wait_interval s)) s)
  else s.

(** [prompts[prompt_index]] *)
Definition element (prompts : list ref) (prompt_index : nat) : value :=
  match prompts !! prompt_index with
  | Some r => VPrompt r
  | None => VUndefined
  end.

(** [prompts[prompt_index].id], read where [prompt_index] is in range. *)
Definition element_id (s : Prompter) (prompts : list ref) (prompt_index : nat) : Z :=
  match prompts !! prompt_index with
  | Some r => match objs s !! r with Some p => id p | None => load_cursor s end
  | None => load_cursor s
  end.

(** The loop of [push_prompts_to_queue]; [n] counts the iterations left,
    [queue_size - queue_index]. *)
Fixpoint push_prompts_loop (n : nat) (prompts : list ref)
    (queue_index prompt_index : nat) (s : Prompter) : Prompter :=
  match n with
  | O => s
  | S n' =>
      if is_null (aget (queue s) queue_index) then
        let s1 := with_queue (aset (queue s) queue_index (element prompts prompt_index)) s in
        let s2 := with_queue_count (queue_count s1 + 1) s1 in
        if Z.of_nat prompt_index =? Z.of_nat (length prompts) - 1
        then with_load_cursor (element_id s2 prompts prompt_index) s2
        else push_prompts_loop n' prompts (S queue_index) (S prompt_index) s2
      else push_prompts_loop n' prompts (S queue_index) prompt_index s
  end.

Definition push_prompts_to_queue (prompts : list ref) (s : Prompter) : Prompter :=
  push_prompts_loop (queue_size s) prompts 0 0 s.

(** The loop of [shift_queue]; [n] counts the iterations left,
    [queue_size - 1 - queue_index]. *)
Fixpoint shift_loop (n : nat) (queue_index : nat) (q : list value) : list value :=
  match n with
  | O => q
  | S n' => shift_loop n' (S queue_index) (aset q queue_index (aget q (S queue_index)))
  end.

Definition shift_queue (s : Prompter) : Prompter :=
  let q := shift_loop (queue_size s - 1) 0 (queue s) in
  with_queue (aset q (queue_size s) VNull) s.

Definition update_step_size (v : Q) (s : Prompter) : Prompter :=
  let f :=
    if Qltb 0 v
    then Qmin (step_size_float s + v) STEP_SIZE_MAX
    else Qmax (step_size_float s + v) STEP_SIZE_MIN in
  let f := Qred f in   (* the rational in lowest terms *)
  with_step_size_int (Math_round f) (with_step_size_float f s).

Definition increment_step_index (s : Prompter) : Prompter :=
  with_step_size_int
    (if step_size_int s =? step_index s then 0 else step_size_int s + 1) s.

Definition abort (s : Prompter) : Prompter :=
  let s := with_chat_interval (clearInterval (chat_interval s)) s in
  let s := with_load_interval (clearInterval (load_interval s)) s in
  let s := with_wait_interval (clearInterval (wait_interval s)) s in
  resolve false (with_aborted true s).

(** The upward loop of [find_closest_queue_index]; [n] counts the iterations
    left, [queue_size - higher_index]. *)
Fixpoint scan_higher (q : list value) (n : nat) (higher_index : nat) : option nat :=
  match n with
  | O => None
  | S n' =>
      if is_null (aget q higher_index) then Some higher_index
      else scan_higher q n' (S higher_index)
  end.

(** The downward loop of [find_closest_queue_index]: it runs while
    [lower_index > 0]. *)
Fixpoint scan_lower (q : list value) (lower_index : nat) : option nat :=
  match lower_index with
  | O => None
  | S lower_index' =>
      if is_null (aget q lower_index) then Some lower_index
      else scan_lower q lower_index'
  end.

(** [find_closest_queue_index] once [exact_index] is known. *)
Definition closest_from (exact_index : nat) (s : Prompter) : option nat :=
  if is_null (aget (queue s) exact_index) then Some exact_index
  else
    let higher :=
      if (exact_index <? queue_size s)%nat
      then scan_higher (queue s) (queue_size s - S exact_index) (S exact_index)
      else None in
    match higher with
    | Some i => Some i
    | None =>
        if (0 <? exact_index)%nat
        then scan_lower (queue s) (exact_index - 1)
        else None
    end.

Definition exact_index (prompt : Prompt) (random : Q) (s : Prompter) : nat :=
  Nat.min (Z.to_nat (retry_delay (retries prompt) random)) (queue_size s).

Definition find_closest_queue_index (prompt : Prompt) (random : Q) (s : Prompter)
  : option nat :=
  closest_from (exact_index prompt random s) s.

(** A method either returns or lets an exception escape; both carry the
    state reached. *)
Inductive result :=
  | Returns (s : Prompter)
  | Throws (s : Prompter).

Definition state_of (r : result) : Prompter :=
  match r with Returns s => s | Throws s => s end.

Definition with_retries (x : Z) (p : Prompt) : Prompt :=
  mkPrompt (id p) (system p) (user p) x.

(** [schedule_prompt]: reading [prompt.retries] of a value that is not an
    object throws a [TypeError].  A reference outside the store, which no
    run produces, is treated in the same way. *)
Definition schedule_prompt (prompt : value) (random : Q) (s : Prompter) : result :=
  match prompt with
  | VPrompt r =>
      match objs s !! r with
      | Some p =>
          if retries p <? RETRY_COUNT then
            match find_closest_queue_index p random s with
            | None => Returns (log (CouldntFindClosestIndex prompt) s)
            | Some queue_index =>
                let s := with_queue (aset (queue s) queue_index prompt) s in
                Returns (with_objs (<[r := with_retries (retries p + 1) p]> (objs s)) s)
            end
          else Returns (log (ReachedMaximumRetries prompt) s)
      | None => Throws s
      end
  | _ => Throws s
  end.

(** [String.prototype.includes] *)
Fixpoint includes (s sub : string) : bool :=
  String.prefix sub s ||
  match s with
  | EmptyString => false
  | String _ s' => includes s' sub
  end.

Definition should_retry (message code : string) : bool :=
  existsb (String.eqb code) RETRY_ERRORS || includes message "tokens".

(** [send_prompt] up to its [await]. *)
Definition send_prompt_begin (prompt : value) (s : Prompter) : Prompter :=
  with_sending (sending s ++ [prompt]) (with_chat_active (chat_active s + 1) s).

(** The [try] block after the [await], and the [catch] block. *)
Definition send_prompt_settle (prompt : value) (o : outcome) (random : Q)
    (s : Prompter) : result :=
  match o with
  | Fulfilled _ => Returns (update_step_size STEP_POSITIVE_AMOUNT s)
  | Rejected (NetworkError message code) =>
      if should_retry message code
      then schedule_prompt prompt random (update_step_size STEP_NEGATIVE_AMOUNT s)
      else Returns (abort (log (UnknownNetworkError prompt (NetworkError message code)) s))
  | Rejected e => Returns (abort (log (UnknownError prompt e) s))
  end.

(** [send_prompt] from the point where [runner.chat] settles. *)
Definition send_prompt_end (prompt : value) (o : outcome) (random : Q)
    (s : Prompter) : result :=
  match send_prompt_settle prompt o random s with
  | Returns s' => Returns (with_chat_active (chat_active s' - 1) s')
  | Throws s' => Throws s'
  end.

(** The callback of the chat interval, up to its [await] when it sends. *)
Definition chat_tick (s : Prompter) : Prompter :=
  if 0 <? queue_count s then
    if (step_index s =? 0) && negb (is_null (aget (queue s) 0))
    then send_prompt_begin (aget (queue s) 0) s
    else shift_queue (increment_step_index s)
  else s.

(** The callback of the chat interval after its [await]. *)
Definition chat_resume (s : Prompter) : Prompter :=
  shift_queue (increment_step_index s).

(** The callback of the load interval, up to its [await]. *)
Definition load_tick (s : Prompter) : Prompter :=
  if load_threshold s <=? queue_count s then s
  else with_loading (S (loading s)) s.

(** The callback of the load interval after its [await]: the prompts of the
    response are new objects. *)
Definition load_return (response : Data) (s : Prompter) : Prompter :=
  if done response then
    setup_wait_interval (with_load_interval (clearInterval (load_interval s)) s)
  else
    let prompts := seq (length (objs s)) (length (data response)) in
    push_prompts_to_queue prompts (with_objs (objs s ++ data response) s).

Definition start (s : Prompter) : Prompter :=
  with_chat_interval (setInterval (chat_interval s))
    (with_load_interval (setInterval (load_interval s)) s).

(** ** Runs *)

(** What can happen to a started [Prompter]: a timer fires, or one of the
    awaited calls settles. *)
Inductive event :=
  | LoadTick
  | LoadReturn (response : Data)
  | ChatTick
  | ChatReturn (i : nat) (o : outcome) (random : Q)
  | ChatResume
  | WaitTick.

Definition step (s : Prompter) (ev : event) : Prompter :=
  match ev with
  | LoadTick => if fires (load_interval s) then load_tick s else s
  | LoadReturn response =>
      match loading s with
      | O => s
      | S n => load_return response (with_loading n s)
      end
  | ChatTick => if fires (chat_interval s) then chat_tick s else s
  | ChatReturn i o random =>
      match sending s !! i with
      | None => s
      | Some prompt =>
          match send_prompt_end prompt o random (with_sending (delete i (sending s)) s) with
          | Returns s' => with_resuming (S (resuming s')) s'
          | Throws s' => s'
          end
      end
  | ChatResume =>
      match resuming s with
      | O => s
      | S n => chat_resume (with_resuming n s)
      end
  | WaitTick => if fires (wait_interval s) then wait_tick s else s
  end.

Definition run (s : Prompter) (evs : list event) : Prompter :=
  fold_left step evs s.

(** ** Observations on states *)

(** The number of slots among the first [n] that are not [null]. *)
Fixpoint count_occupied (q : list value) (n : nat) : Z :=
  match n with
  | O => 0
  | S n' => count_occupied q n' + (if is_null (aget q n') then 0 else 1)
  end.

(** The number of occupied slots of the timeline. *)
Definition occupied (s : Prompter) : Z :=
  count_occupied (queue s) (queue_size s).

(** ** Concrete states used below *)

Definition model4 : Model := mkModel "model" 4 4096.

Definition prompt_of (i retries : Z) : Prompt := mkPrompt i "system" "user" retries.

(** A started [Prompter] for [rpm = 4] (eight slots) holding the given
    objects and queue. *)
Definition prompter4 (o : list Prompt) (q : list value) (count : Z) : Prompter :=
  with_queue_count count (with_queue q (with_objs o (start (constructor model4)))).


(** Eight prompt objects with ids 1 to 8; the first has been retried
    [retries] times. *)
Definition eight_prompts (retries : Z) : list Prompt :=
  prompt_of 1 retries :: map (fun i => prompt_of i 0) [2; 3; 4; 5; 6; 7; 8].

(** The eight-slot timeline whose only free slot is slot 0. *)
Definition only_front_free : list value :=
  [VNull; VPrompt 1; VPrompt 2; VPrompt 3; VPrompt 4; VPrompt 5; VPrompt 6; VPrompt 7].

(** ** The two kinds of failed send *)

(** The [catch] block of [send_prompt] either reschedules the prompt or
    aborts the run. *)
Inductive classification := Retryable | Fatal.

(** The tests of the [catch] block: [error instanceof NetworkError], then
    [should_retry]. *)
Definition classify (e : error) : classification :=
  match e with
  | NetworkError message code => if should_retry message code then Retryable else Fatal
  | OtherError _ => Fatal
  end.

(** The line the [catch] block logs before it aborts. *)
Definition fatal_report (prompt : value) (e : error) : report :=
  match e with
  | NetworkError _ _ => UnknownNetworkError prompt e
  | OtherError _ => UnknownError prompt e
  end.

(** A model with [rpm = 80]: 160 slots, loads of 20 prompts. *)
Definition model80 : Model := mkModel "model" 80 4096.

(** A page of the store: prompts with ids [from + 1 .. from + n]. *)
Definition page (from : Z) (n : nat) : Data :=
  mkData false (map (fun k => prompt_of (from + Z.of_nat k) 0) (seq 1 n)).

(** One chat tick that sends, the success of that send, and the rest of the
    tick. *)
Definition successful_tick : list event :=
  [ChatTick; ChatReturn 0 (Fulfilled "output") 0; ChatResume].

(** A run that loads one page of 20 prompts and then sends [n] of them with
    success, one per tick. *)
Definition loaded_then_sent (n : nat) : Prompter :=
  run (start (constructor model80))
    ([LoadTick; LoadReturn (page 0 20)] ++ concat (replicate n successful_tick)).

(** ** Well-formed states *)

(** A reference to one of the first [n] prompt objects. *)
Definition valid_prompt (n : nat) (v : value) : Prop :=
  ∃ r, v = VPrompt r ∧ (r < n)%nat.

(** What the declared type [Prompt | null] allows in a slot. *)
Definition valid_slot (n : nat) (v : value) : Prop :=
  v = VNull ∨ valid_prompt n v.

(** The states in which the array covers the timeline, every element of the
    array is of the declared type and every pending send has a prompt
    object for argument. *)
Record well_typed (s : Prompter) : Prop := mkWellTyped {
  wt_size : (0 < queue_size s)%nat;
  wt_length : (queue_size s ≤ length (queue s))%nat;
  wt_queue : Forall (valid_slot (length (objs s))) (queue s);
  wt_sending : Forall (valid_prompt (length (objs s))) (sending s);
}.

(** In a well-formed state [chat_active] is moreover the number of pending
    sends. *)
Definition well_formed (s : Prompter) : Prop :=
  well_typed s ∧ chat_active s = Z.of_nat (length (sending s)).

(** The contract of the store: a response that is not [done] carries at
    least one prompt. *)
Definition store_contract (ev : event) : Prop :=
  match ev with
  | LoadReturn response => done response = false → data response ≠ []
  | _ => True
  end.

(** ** Tactics *)

(** Unfolds the callbacks down to the setters. *)
Ltac unfold_methods :=
  unfold load_tick, load_return, chat_tick, chat_resume, wait_tick,
    send_prompt_end, send_prompt_settle, send_prompt_begin, schedule_prompt,
    abort, resolve, update_step_size, increment_step_index, shift_queue,
    setup_wait_interval, log, state_of in *.

(** Splits on every test the callbacks make. *)
Ltac split_cases := repeat (case_match; simpl in *; simplify_eq; try done).


From Stdlib Require Import Lqa.

(** ** Further observations *)

(** The number of [null] slots among the [n] slots from index [i] on. *)
Fixpoint free_in (q : list value) (i n : nat) : nat :=
  match n with
  | O => 0
  | S n' => (if is_null (aget q i) then 1 else 0) + free_in q (S i) n'
  end.

(** The number of free slots of the timeline. *)
Definition free_slots (s : Prompter) : nat :=
  free_in (queue s) 0 (queue_size s).

(** [shift_queue] applied [k] times. *)
Definition shifts (k : nat) (s : Prompter) : Prompter :=
  Nat.iter k shift_queue s.

(** The chat callback fired [k] times in a row. *)
Definition chat_ticks (k : nat) (s : Prompter) : Prompter :=
  Nat.iter k chat_tick s.

(** The intervals of the loader and of the dispatcher are armed once, by
    [start]: the handle in the field is live exactly when a timer is. *)
Definition armed_once (t : interval) : Prop :=
  live t = (if stored t then 1 else 0)%nat.

(** No prompt handed over by the store has been retried more than
    [RETRY_COUNT] times. *)
Definition loads_within_retries (ev : event) : Prop :=
  match ev with
  | LoadReturn response => Forall (λ p, retries p ≤ RETRY_COUNT) (data response)
  | _ => True
  end.

(** What holds of the timers of a started [Prompter]: the intervals of the
    loader and of the dispatcher are armed once, and after an abort neither
    is live and the promise is settled. *)
Definition timers_consistent (s : Prompter) : Prop :=
  armed_once (load_interval s) ∧ armed_once (chat_interval s) ∧
  (aborted s = true →
   stored (load_interval s) = false ∧ stored (chat_interval s) = false ∧
   is_Some (completion s)).

(** * The prompt template (src/main.ts)

    A prompt is written as a tree of tags and rendered as indented XML.
    Numbers are kept abstract: the rendering needs only their conversion
    to a string and their truth value. *)

From Stdlib Require Import DecimalString.

Infix "+:+" := String.append (at level 60, right associativity).

(** What the template needs of JavaScript numbers. *)
Class JSNumber (number : Type) := {
  number_to_string : number → string;    (* the conversion of a template literal *)
  number_to_boolean : number → bool;     (* false for 0 and NaN *)
}.

(** The integers among the numbers, written in decimal. *)
#[global] Instance Z_number : JSNumber Z := {|
  number_to_string := fun z => NilZero.string_of_int (Z.to_int z);
  number_to_boolean := fun z => negb (z =? 0);
|}.

Inductive Primitive (number : Type) :=
  | PString (s : string)
  | PNumber (n : number)
  | PBoolean (b : bool).

Arguments PString {number} s.
Arguments PNumber {number} n.
Arguments PBoolean {number} b.

(** The keys of [TagDefinition]. *)
Inductive TagType :=
  | TString | TNumber | TBoolean | TIf | TElseIf | TElse | TConditions | TArray.

(** A params object, as the list of its keys in the order of [Object.keys],
    each with its value. *)
Abbreviation Params number := (list (string * Primitive number)) (only parsing).

#[warnings="-register-all"]
Inductive TagContent (number : Type) :=
  | CPrimitive (p : Primitive number)
  | CTag (t : BaseTag number)
  | CArray (l : list (TagContent number))
with BaseTag (number : Type) :=
  | mkTag (type : TagType) (tag_name : string)
      (params : option (list (string * Primitive number)))
      (content : TagContent number).

Arguments CPrimitive {number} p.
Arguments CTag {number} t.
Arguments CArray {number} l.
Arguments mkTag {number} type tag_name params content.

(** The line feed and the double quote. *)
Definition nl : string := String (Ascii.ascii_of_nat 10) EmptyString.
Definition dquote : string := String (Ascii.ascii_of_nat 34) EmptyString.

(** [" ".repeat(n)] *)
Fixpoint spaces (n : nat) : string :=
  match n with
  | O => EmptyString
  | S n' => String (Ascii.ascii_of_nat 32) (spaces n')
  end.

Definition indent (depth : Z) : string :=
  if depth <? 0 then EmptyString else spaces (Z.to_nat (depth * 2)).

(** [Array.prototype.join] on strings. *)
Fixpoint join (sep : string) (l : list string) : string :=
  match l with
  | [] => EmptyString
  | [x] => x
  | x :: l' => x +:+ sep +:+ join sep l'
  end.

Section Template.
Context {number : Type} `{JSNumber number}.

(** A primitive inside a template literal. *)
Definition primitive_to_string (p : Primitive number) : string :=
  match p with
  | PString s => s
  | PNumber n => number_to_string n
  | PBoolean b => if b then "true"%string else "false"%string
  end.

(** The truth value of a content: the empty string, the numbers 0 and NaN
    and [false] are falsy; objects and arrays are truthy. *)
Definition truthy (content : TagContent number) : bool :=
  match content with
  | CPrimitive (PString s) => negb (String.eqb s EmptyString)
  | CPrimitive (PNumber n) => number_to_boolean n
  | CPrimitive (PBoolean b) => b
  | CTag _ => true
  | CArray _ => true
  end.

(** [tag], called with its four arguments, as all the helpers below do: the
    params are kept only when the content is truthy. *)
Definition tag (tag_name : string) (type : TagType) (params : Params number)
    (content : TagContent number) : BaseTag number :=
  mkTag type tag_name (if truthy content then Some params else None) content.

(** One step of the loop of [XMLParams]. *)
Definition attribute (kv : string * Primitive number) : string :=
  fst kv +:+ "=" +:+ dquote +:+ primitive_to_string (snd kv) +:+ dquote.

Definition XMLParams (params : option (Params number)) : string :=
  match params with
  | None => EmptyString
  | Some kvs =>
      if (length kvs =? 0)%nat then EmptyString
      else fold_left (fun output kv => output +:+ attribute kv) kvs " "%string
  end.

Fixpoint XMLContent (content : TagContent number) (depth : Z) {struct content}
  : string :=
  match content with
  | CPrimitive p => indent depth +:+ primitive_to_string p
  | CArray l => join (nl +:+ nl) (map (fun v => XMLContent v depth) l)
  | CTag t => XMLTag t depth
  end
with XMLTag (t : BaseTag number) (depth : Z) {struct t} : string :=
  match t with
  | mkTag _ tag_name params content =>
      indent depth +:+ "<" +:+ tag_name +:+ XMLParams params +:+ ">" +:+ nl +:+
      XMLContent content (depth + 1) +:+
      nl +:+ indent depth +:+ "</" +:+ tag_name +:+ ">"
  end.

(** The helpers [$string], [$number], [$conditions], [$if], [$elseif],
    [$else] and [$array]; the params default to the empty object. *)
Definition tag_string (tag_name content : string) (params : Params number) :=
  tag tag_name TString params (CPrimitive (PString content)).

Definition tag_number (tag_name : string) (content : number) (params : Params number) :=
  tag tag_name TNumber params (CPrimitive (PNumber content)).

Definition tag_conditions (tag_name : string) (content : list (TagContent number))
    (params : Params number) :=
  tag tag_name TConditions params (CArray content).

Definition tag_if (content : TagContent number) (params : Params number) :=
  tag "if" TIf params content.

Definition tag_elseif (content : TagContent number) (params : Params number) :=
  tag "elseif" TElseIf params content.

Definition tag_else (content : TagContent number) (params : Params number) :=
  tag "else" TElse params content.

Definition tag_array (tag_name : string) (content : list (TagContent number))
    (params : Params number) :=
  tag tag_name TArray params (CArray content).

End Template.

(** ** Observations on rendered text *)

Definition newline : Ascii.ascii := Ascii.ascii_of_nat 10.

(** [shift_lines at_start s] puts two spaces in front of every line of [s]
    that is not empty; [at_start] tells whether [s] begins at the start of
    a line. *)
Fixpoint shift_lines (at_start : bool) (s : string) : string :=
  match s with
  | EmptyString => EmptyString
  | String c s' =>
      if Ascii.eqb c newline then String c (shift_lines true s')
      else if at_start then spaces 2 +:+ String c (shift_lines false s')
      else String c (shift_lines false s')
  end.

(** Whether the text that follows [s] begins at the start of a line. *)
Fixpoint ends_line (at_start : bool) (s : string) : bool :=
  match s with
  | EmptyString => at_start
  | String c s' => ends_line (Ascii.eqb c newline) s'
  end.

(** A text on one line. *)
Fixpoint one_line (s : string) : bool :=
  match s with
  | EmptyString => true
  | String c s' => negb (Ascii.eqb c newline) && one_line s'
  end.

Section TemplateObservations.
Context {number : Type} `{JSNumber number}.

(** The contents whose primitives are written on one line and are not
    empty, and whose tag names and params hold no line feed. *)
Fixpoint plain (content : TagContent number) : bool :=
  match content with
  | CPrimitive p =>
      one_line (primitive_to_string p)
      && negb (String.eqb (primitive_to_string p) EmptyString)
  | CArray l => forallb plain l
  | CTag (mkTag _ tag_name params content) =>
      one_line tag_name && one_line (XMLParams params) && plain content
  end.

End TemplateObservations.

(** ** A prompt that fails every time *)

(** One chat tick that sends, the failure of that send with code 429, the
    jitter at its lowest, and the rest of the tick. *)
Definition failed_tick : list event :=
  [ChatTick;
   ChatReturn 0 (Rejected (NetworkError "Too Many Requests" "429")) 0;
   ChatResume].

(** With [rpm = 4], the run that loads one prompt and sees each of its sends
    fail, up to the chat tick that sends it for the fourth time; the ticks
    between two sends find slot 0 empty and only advance the timeline. *)
Definition fourth_send : Prompter :=
  run (start (constructor model4))
    ([LoadTick; LoadReturn (mkData false [prompt_of 1 0])]
     ++ failed_tick
     ++ failed_tick
     ++ [ChatTick] ++ failed_tick
     ++ [ChatTick; ChatTick; ChatTick; ChatTick]
     ++ [ChatTick]).
(** * Properties *)

(** ** JavaScript arrays *)

Section Arrays.
Implicit Types (a : list value) (i j : nat) (v : value).

Lemma aget_aset_eq a i v : aget (aset a i v) i = v.
Proof.
  unfold aget, aset. destruct (Nat.ltb_spec i (length a)) as [Hlt|Hge].
  - by rewrite list_lookup_insert_eq.
  - rewrite lookup_app_r by lia.
    rewrite lookup_app_r by (rewrite length_replicate; lia).
    rewrite length_replicate.
    by replace (i - length a - (i - length a))%nat with 0%nat by lia.
Qed.

Lemma aget_aset_ne a i j v : i ≠ j → aget (aset a i v) j = aget a j.
Proof.
  intros Hne. unfold aget, aset.
  destruct (Nat.ltb_spec i (length a)) as [Hlt|Hge].
  - by rewrite list_lookup_insert_ne.
  - destruct (Nat.lt_ge_cases j (length a)) as [Hj|Hj].
    + by rewrite lookup_app_l.
    + rewrite (lookup_ge_None_2 a j) by lia.
      rewrite lookup_app_r by lia.
      destruct (Nat.lt_ge_cases (j - length a) (i - length a)) as [Hk|Hk].
      * rewrite lookup_app_l by (rewrite length_replicate; lia).
        by rewrite lookup_replicate_2.
      * rewrite lookup_app_r by (rewrite length_replicate; lia).
        rewrite length_replicate.
        destruct (j - length a - (i - length a))%nat as [|k] eqn:Hd; [lia|].
        done.
Qed.

Lemma aget_aset a i j v :
  aget (aset a i v) j = if decide (i = j) then v else aget a j.
Proof.
  case_decide as H; [subst; apply aget_aset_eq | by apply aget_aset_ne].
Qed.

Lemma length_aset a i v : length (aset a i v) = Nat.max (length a) (S i).
Proof.
  unfold aset. destruct (Nat.ltb_spec i (length a)) as [Hlt|Hge].
  - rewrite length_insert. lia.
  - rewrite !length_app, length_replicate. simpl. lia.
Qed.

Lemma aget_replicate_null n i : (i < n)%nat → aget (replicate n VNull) i = VNull.
Proof. intros H. unfold aget. by rewrite lookup_replicate_2. Qed.

Lemma aget_ge a i : (length a ≤ i)%nat → aget a i = VUndefined.
Proof. intros H. unfold aget. by rewrite lookup_ge_None_2. Qed.
End Arrays.

(** ** The timeline: [shift_queue] *)

Lemma shift_loop_get n : ∀ k q j,
  aget (shift_loop n k q) j =
    if bool_decide (k ≤ j < k + n)%nat then aget q (S j) else aget q j.
Proof.
  induction n as [|n IH]; intros k q j; simpl.
  - by rewrite bool_decide_eq_false_2 by lia.
  - rewrite IH. destruct (decide (j = k)) as [->|Hjk].
    + rewrite bool_decide_eq_false_2 by lia.
      rewrite bool_decide_eq_true_2 by lia. apply aget_aset_eq.
    + case_bool_decide as H1.
      * rewrite bool_decide_eq_true_2 by lia. apply aget_aset_ne. lia.
      * rewrite bool_decide_eq_false_2 by lia. apply aget_aset_ne. lia.
Qed.

Lemma shift_loop_length n : ∀ k q,
  (k + n < length q)%nat → length (shift_loop n k q) = length q.
Proof.
  induction n as [|n IH]; intros k q H; simpl; [done|].
  rewrite IH; rewrite length_aset; lia.
Qed.

(** What [shift_queue] does to the array: the slots from 1 on move down by
    one, the last slot of the timeline keeps its content, and [null] is
    written at index [queue_size]. *)
Lemma shift_queue_get s j :
  aget (queue (shift_queue s)) j =
    if decide (j = queue_size s) then VNull
    else if bool_decide (j < queue_size s - 1)%nat then aget (queue s) (S j)
    else aget (queue s) j.
Proof.
  unfold shift_queue. simpl. rewrite aget_aset.
  destruct (decide (j = queue_size s)) as [->|H].
  - by rewrite decide_True.
  - rewrite decide_False by congruence. rewrite shift_loop_get.
    case_bool_decide; case_bool_decide; (done || lia).
Qed.

Lemma shift_queue_length s :
  (queue_size s ≤ length (queue s))%nat →
  length (queue (shift_queue s)) = Nat.max (length (queue s)) (S (queue_size s)).
Proof.
  intros H. unfold shift_queue. simpl. rewrite length_aset.
  destruct (queue_size s) as [|n] eqn:E; simpl; [done|].
  rewrite shift_loop_length; [done | lia].
Qed.

(** On an array of [queue_size] elements [shift_queue] adds an element at
    index [queue_size] and leaves the last slot as it was. *)
Lemma shift_queue_grows s :
  length (queue s) = queue_size s → (0 < queue_size s)%nat →
  length (queue (shift_queue s)) = S (queue_size s) ∧
  aget (queue (shift_queue s)) (queue_size s) = VNull ∧
  aget (queue (shift_queue s)) (queue_size s - 1) = aget (queue s) (queue_size s - 1).
Proof.
  intros Hlen Hpos. split; [rewrite shift_queue_length; lia|].
  rewrite !shift_queue_get. split; [by rewrite decide_True|].
  rewrite decide_False by lia. by rewrite bool_decide_eq_false_2 by lia.
Qed.

(** ** The occupied-slot counter *)

Lemma count_occupied_ext q q' n :
  (∀ i, (i < n)%nat → aget q i = aget q' i) →
  count_occupied q n = count_occupied q' n.
Proof.
  induction n as [|n IH]; intros H; simpl; [done|].
  rewrite IH by (intros; apply H; lia). by rewrite (H n) by lia.
Qed.

Lemma count_occupied_aset_ge q n i v :
  (n ≤ i)%nat → count_occupied (aset q i v) n = count_occupied q n.
Proof.
  intros H. apply count_occupied_ext. intros j Hj. apply aget_aset_ne. lia.
Qed.

Lemma count_occupied_aset_fill q n i v :
  (i < n)%nat → is_null (aget q i) = true → is_null v = false →
  count_occupied (aset q i v) n = count_occupied q n + 1.
Proof.
  intros Hi Hold Hnew. induction n as [|n IH]; [lia|]. simpl.
  destruct (decide (i = n)) as [->|Hne].
  - rewrite aget_aset_eq, Hold, Hnew, count_occupied_aset_ge by lia. lia.
  - rewrite aget_aset_ne, IH by lia. lia.
Qed.

Lemma count_occupied_bounds q n : 0 ≤ count_occupied q n ≤ Z.of_nat n.
Proof.
  induction n as [|n IH]; simpl; [lia|].
  destruct (is_null (aget q n)); lia.
Qed.

Lemma element_not_null prompts i : is_null (element prompts i) = false.
Proof. unfold element. by destruct (prompts !! i). Qed.

Lemma push_prompts_loop_queue_size n : ∀ prompts qi pi s,
  queue_size (push_prompts_loop n prompts qi pi s) = queue_size s.
Proof.
  induction n as [|n IH]; intros; simpl; [done|].
  destruct (is_null _); [destruct (_ =? _)|]; simpl; rewrite ?IH; done.
Qed.

(** Placing loaded prompts keeps the counter in step with the slots: each
    slot filled adds one to [queue_count]. *)
Lemma push_prompts_loop_counter n : ∀ prompts qi pi s,
  (qi + n = queue_size s)%nat →
  queue_count (push_prompts_loop n prompts qi pi s)
    - occupied (push_prompts_loop n prompts qi pi s)
  = queue_count s - occupied s.
Proof.
  induction n as [|n IH]; intros prompts qi pi s Hn; simpl; [done|].
  destruct (is_null (aget (queue s) qi)) eqn:Hnull.
  - assert (Hfill : count_occupied (aset (queue s) qi (element prompts pi)) (queue_size s)
                    = occupied s + 1).
    { apply count_occupied_aset_fill; [lia | done | apply element_not_null]. }
    destruct (_ =? _).
    + unfold occupied in *. simpl. lia.
    + rewrite IH by (simpl; lia). unfold occupied in *. simpl. lia.
  - apply IH. lia.
Qed.

Lemma push_prompts_to_queue_counter prompts s :
  queue_count s = occupied s →
  queue_count (push_prompts_to_queue prompts s)
  = occupied (push_prompts_to_queue prompts s).
Proof.
  intros H. unfold push_prompts_to_queue.
  pose proof (push_prompts_loop_counter (queue_size s) prompts 0 0 s eq_refl).
  lia.
Qed.

Lemma shift_queue_queue_count s : queue_count (shift_queue s) = queue_count s.
Proof. reflexivity. Qed.

Lemma schedule_prompt_queue_count v random s :
  queue_count (state_of (schedule_prompt v random s)) = queue_count s.
Proof.
  unfold schedule_prompt. destruct v as [| |r]; try done.
  destruct (objs s !! r) as [p|]; [|done].
  destruct (retries p <? RETRY_COUNT); [|done].
  by destruct (find_closest_queue_index p random s).
Qed.

(** C1 (the code departs from the claim): after [shift_queue] has consumed
    the only item the counter still reads 1 while no slot is occupied, and
    after [schedule_prompt] has placed an item the counter still reads 0
    while one slot is occupied; only [push_prompts_to_queue] keeps the
    counter equal to the number of occupied slots. *)
Theorem queue_count_diverges_from_occupied :
  let loaded := run (start (constructor model4))
                  [LoadTick; LoadReturn (mkData false [prompt_of 1 0])] in
  (queue_count loaded = 1 ∧ occupied loaded = 1) ∧
  (queue_count (shift_queue loaded) = 1 ∧ occupied (shift_queue loaded) = 0) ∧
  let empty := prompter4 [prompt_of 1 0] (replicate 8 VNull) 0 in
  let placed := state_of (schedule_prompt (VPrompt 0) 0 empty) in
  (queue_count empty = 0 ∧ occupied empty = 0) ∧
  (queue_count placed = 0 ∧ occupied placed = 1).
Proof. vm_compute. repeat split. Qed.

(** C2 (the code departs from the claim): on the eight-slot timeline whose
    last slot holds an item, [shift_queue] leaves that item in slot 7 as
    well as copying it to slot 6, and writes [null] at index 8, so that the
    array grows to nine elements. *)
Theorem shift_queue_writes_past_capacity :
  let s := prompter4 [prompt_of 1 0] (replicate 7 VNull ++ [VPrompt 0]) 1 in
  queue_size s = 8%nat ∧
  length (queue s) = 8%nat ∧
  queue (shift_queue s) = replicate 6 VNull ++ [VPrompt 0; VPrompt 0; VNull] ∧
  length (queue (shift_queue s)) = 9%nat.
Proof. vm_compute. repeat split. Qed.

(** ** The search for a free slot *)

Lemma scan_higher_Some q n : ∀ k i,
  scan_higher q n k = Some i →
  (k ≤ i < k + n)%nat ∧ is_null (aget q i) = true ∧
  ∀ j, (k ≤ j < i)%nat → is_null (aget q j) = false.
Proof.
  induction n as [|n IH]; intros k i; simpl; [done|].
  destruct (is_null (aget q k)) eqn:Hk.
  - intros [= <-]. repeat split; [lia | lia | done | intros; lia].
  - intros H. apply IH in H as (Hr & Hi & Hb). repeat split; [lia | lia | done |].
    intros j Hj. destruct (decide (j = k)) as [->|]; [done | apply Hb; lia].
Qed.

Lemma scan_higher_None q n : ∀ k,
  scan_higher q n k = None →
  ∀ j, (k ≤ j < k + n)%nat → is_null (aget q j) = false.
Proof.
  induction n as [|n IH]; intros k; simpl; [intros; lia|].
  destruct (is_null (aget q k)) eqn:Hk; [done|].
  intros H j Hj. destruct (decide (j = k)) as [->|]; [done|].
  apply (IH (S k)); [done | lia].
Qed.

Lemma scan_lower_Some q k : ∀ i,
  scan_lower q k = Some i →
  (1 ≤ i ≤ k)%nat ∧ is_null (aget q i) = true ∧
  ∀ j, (i < j ≤ k)%nat → is_null (aget q j) = false.
Proof.
  induction k as [|k IH]; intros i; simpl; [done|].
  destruct (is_null (aget q (S k))) eqn:Hk.
  - intros [= <-]. repeat split; [lia | lia | done | intros; lia].
  - intros H. apply IH in H as (Hr & Hi & Hb). repeat split; [lia | lia | done |].
    intros j Hj. destruct (decide (j = S k)) as [->|]; [done | apply Hb; lia].
Qed.

Lemma scan_lower_None q k :
  scan_lower q k = None →
  ∀ j, (1 ≤ j ≤ k)%nat → is_null (aget q j) = false.
Proof.
  induction k as [|k IH]; simpl; [intros; lia|].
  destruct (is_null (aget q (S k))) eqn:Hk; [done|].
  intros H j Hj. destruct (decide (j = S k)) as [->|]; [done|].
  apply IH; [done | lia].
Qed.

(** The slot returned by the search holds [null], and lies in the array up
    to index [queue_size] when the target does. *)
Lemma closest_from_Some e s i :
  closest_from e s = Some i →
  is_null (aget (queue s) i) = true ∧ ((e ≤ queue_size s)%nat → (i ≤ queue_size s)%nat).
Proof.
  unfold closest_from. destruct (is_null (aget (queue s) e)) eqn:He.
  - intros [= <-]. done.
  - destruct (Nat.ltb_spec e (queue_size s)) as [Hlt|Hge].
    + destruct (scan_higher _ _ _) as [h|] eqn:Hh.
      * intros [= <-]. apply scan_higher_Some in Hh as (? & ? & _). split; [done | lia].
      * destruct (Nat.ltb_spec 0 e) as [Hpos|Hz]; [|done].
        intros H. apply scan_lower_Some in H as (? & ? & _). split; [done | lia].
    + destruct (Nat.ltb_spec 0 e) as [Hpos|Hz]; [|done].
      intros H. apply scan_lower_Some in H as (? & ? & _). split; [done | lia].
Qed.

(** When the search returns nothing, every slot from 1 up to the last one
    is occupied; slot 0 has been examined only when it was the target. *)
Lemma closest_from_None e s :
  closest_from e s = None → (e ≤ queue_size s)%nat →
  (∀ j, (1 ≤ j < queue_size s)%nat → is_null (aget (queue s) j) = false) ∧
  (e = 0%nat → is_null (aget (queue s) 0) = false).
Proof.
  unfold closest_from. destruct (is_null (aget (queue s) e)) eqn:He; [done|].
  intros H Hle. split; [|by intros ->].
  intros j Hj. destruct (decide (j = e)) as [->|Hne]; [done|].
  destruct (Nat.ltb_spec e (queue_size s)) as [Hlt|Hge].
  - destruct (scan_higher _ _ _) as [h|] eqn:Hh; [done|].
    destruct (Nat.lt_ge_cases e j) as [Hej|Hej].
    + apply (scan_higher_None _ _ _ Hh). lia.
    + destruct (Nat.ltb_spec 0 e) as [Hpos|Hz]; [|lia].
      apply (scan_lower_None _ _ H). lia.
  - destruct (Nat.ltb_spec 0 e) as [Hpos|Hz]; [|lia].
    apply (scan_lower_None _ _ H). lia.
Qed.

(** The upward scan comes first: a free slot above the target wins over
    any slot below it. *)
Lemma closest_from_higher_first e s j :
  is_null (aget (queue s) e) = false →
  (e < j < queue_size s)%nat → is_null (aget (queue s) j) = true →
  ∃ i, closest_from e s = Some i ∧ (e < i ≤ j)%nat.
Proof.
  intros He Hj Hnull. unfold closest_from. rewrite He.
  destruct (Nat.ltb_spec e (queue_size s)) as [_|]; [|lia].
  destruct (scan_higher _ _ _) as [h|] eqn:Hh.
  - exists h. split; [done|]. apply scan_higher_Some in Hh as (? & ? & Hb).
    destruct (Nat.lt_ge_cases j h) as [Hlt|]; [|lia].
    rewrite Hb in Hnull by lia. done.
  - rewrite (scan_higher_None _ _ _ Hh j) in Hnull by lia. done.
Qed.

Lemma exact_index_le p random s : (exact_index p random s ≤ queue_size s)%nat.
Proof. apply Nat.le_min_r. Qed.

(** ** The backoff delay *)

Lemma retry_delay_full_jitter :
  map (fun r => retry_delay r 1) [0; 1; 2; 3; 4; 5; 6; 7; 8; 9]
  = [1; 3; 7; 12; 19; 27; 36; 46; 58; 70].
Proof. vm_compute. reflexivity. Qed.

Lemma retry_delay_monotone r1 r2 :
  0 ≤ r1 → r1 ≤ r2 → r2 ≤ 9 → retry_delay r1 1 ≤ retry_delay r2 1.
Proof.
  intros H0 H1 H2.
  assert (Ht : ∀ r, 0 ≤ r ≤ 9 →
    retry_delay r 1 = nth (Z.to_nat r) [1; 3; 7; 12; 19; 27; 36; 46; 58; 70] 0).
  { intros r Hr.
    assert (r = 0 ∨ r = 1 ∨ r = 2 ∨ r = 3 ∨ r = 4 ∨ r = 5 ∨ r = 6 ∨ r = 7 ∨ r = 8 ∨ r = 9)
      as [->|[->|[->|[->|[->|[->|[->|[->|[->| ->]]]]]]]]] by lia;
      vm_compute; reflexivity. }
  rewrite (Ht r1), (Ht r2) by lia.
  assert (Hn : ∀ r, 0 ≤ r ≤ 9 → ∃ n, Z.to_nat r = n ∧ (n ≤ 9)%nat ∧ r = Z.of_nat n).
  { intros r Hr. exists (Z.to_nat r). lia. }
  destruct (Hn r1 ltac:(lia)) as (n1 & -> & Hn1 & ->).
  destruct (Hn r2 ltac:(lia)) as (n2 & -> & Hn2 & ->).
  assert (Hle : (n1 ≤ n2)%nat) by lia. clear - Hn2 Hle.
  do 10 (destruct n2 as [|n2]; [do 10 (destruct n1 as [|n1]; [simpl; lia|]); lia|]).
  lia.
Qed.

(** With the jitter at 1.0 the delay [k] is the integer part of
    [(retries + 1)^1.85]: [k^20 <= (retries + 1)^37 < (k + 1)^20]. *)
Lemma retry_delay_is_floor r :
  0 ≤ r ≤ 9 →
  retry_delay r 1 ^ 20 ≤ (r + 1) ^ 37 < (retry_delay r 1 + 1) ^ 20.
Proof.
  intros Hr.
  assert (r = 0 ∨ r = 1 ∨ r = 2 ∨ r = 3 ∨ r = 4 ∨ r = 5 ∨ r = 6 ∨ r = 7 ∨ r = 8 ∨ r = 9)
    as [->|[->|[->|[->|[->|[->|[->|[->|[->| ->]]]]]]]]] by lia;
    vm_compute; split; (discriminate || reflexivity).
Qed.

(** With the jitter at 1.0 the clamped index does not decrease with the
    number of retries. *)
Lemma exact_index_monotone p1 p2 s :
  0 ≤ retries p1 → retries p1 ≤ retries p2 → retries p2 ≤ 9 →
  (exact_index p1 1 s ≤ exact_index p2 1 s)%nat.
Proof.
  intros H0 H1 H2. unfold exact_index.
  pose proof (retry_delay_monotone _ _ H0 H1 H2).
  apply Nat.min_le_compat_r. lia.
Qed.

(** C3 (the code departs from the claim): the index is clamped at
    [queue_size], not at [queue_size - 1].  On the eight-slot timeline an
    item with nine retries gets index 8 whatever the jitter (here at both
    ends of its range), one past the last slot; once [shift_queue] has
    written [null] there the search returns 8, the item is stored outside
    the timeline, and the next [shift_queue] erases it. *)
Theorem exact_index_exceeds_last_slot :
  let s := prompter4 [prompt_of 1 9] (replicate 8 VNull) 0 in
  queue_size s = 8%nat ∧
  exact_index (prompt_of 1 9) 1 s = 8%nat ∧
  exact_index (prompt_of 1 9) 0 s = 8%nat ∧
  let s1 := shift_queue s in
  find_closest_queue_index (prompt_of 1 9) 1 s1 = Some 8%nat ∧
  let s2 := state_of (schedule_prompt (VPrompt 0) 1 s1) in
  queue s2 = replicate 8 VNull ++ [VPrompt 0] ∧
  occupied s2 = 0 ∧
  queue (shift_queue s2) = replicate 9 VNull.
Proof. vm_compute. repeat split. Qed.

(** C4 (the code departs from the claim): the downward scan stops above
    index 0.  On the eight-slot timeline whose only free slot is slot 0, the
    search for an item with one retry (target 2) returns nothing, and
    [schedule_prompt] drops the item although the timeline is not full.
    The target itself is clamped into [0, queue_size], not [0, queue_size). *)
Theorem find_closest_misses_slot_zero :
  let s := prompter4 (eight_prompts 1) only_front_free 7 in
  let p := prompt_of 1 1 in
  queue_size s = 8%nat ∧
  aget (queue s) 0 = VNull ∧
  exact_index p 0 s = 2%nat ∧
  find_closest_queue_index p 0 s = None ∧
  schedule_prompt (VPrompt 0) 0 s = Returns (log (CouldntFindClosestIndex (VPrompt 0)) s).
Proof. vm_compute. repeat split. Qed.

(** ** The throttle *)

Lemma update_step_size_int v s :
  step_size_int (update_step_size v s) = Math_round (step_size_float (update_step_size v s)).
Proof. reflexivity. Qed.

(** The step never exceeds the maximum. *)
Lemma update_step_size_upper v s :
  (step_size_float s <= STEP_SIZE_MAX)%Q → (v <= 0 ∨ 0 < v)%Q →
  (step_size_float (update_step_size v s) <= STEP_SIZE_MAX)%Q.
Proof.
  intros Hs Hv. unfold update_step_size, Qltb. simpl. rewrite Qred_correct.
  destruct (Qle_bool v 0) eqn:E; simpl.
  - apply Qle_bool_iff in E. apply Q.max_lub; [|done].
    rewrite <- (Qplus_0_r STEP_SIZE_MAX). by apply Qplus_le_compat.
  - apply Q.le_min_r.
Qed.

(** Once the step is in [[1, 32]] it stays there. *)
Lemma update_step_size_range v s :
  (STEP_SIZE_MIN <= step_size_float s <= STEP_SIZE_MAX)%Q →
  (STEP_SIZE_MIN <= step_size_float (update_step_size v s) <= STEP_SIZE_MAX)%Q.
Proof.
  intros [Hlo Hhi]. unfold update_step_size, Qltb. simpl. rewrite Qred_correct.
  destruct (Qle_bool v 0) eqn:E; simpl.
  - apply Qle_bool_iff in E. split; [apply Q.le_max_r|].
    apply Q.max_lub; [|done].
    rewrite <- (Qplus_0_r STEP_SIZE_MAX). by apply Qplus_le_compat.
  - assert (Hv : (0 < v)%Q).
    { apply Qnot_le_lt. intros H. apply Qle_bool_iff in H. congruence. }
    split; [|apply Q.le_min_r].
    apply Q.min_glb; [|done].
    rewrite <- (Qplus_0_r STEP_SIZE_MIN). apply Qplus_le_compat; [done|].
    by apply Qlt_le_weak.
Qed.

(** C5 (the code departs from the claim): the constructor sets the step to
    0, below the minimum of 1, and a success only adds 0.1 to it: the step
    is outside [[1, 32]] from the start and after the first success. *)
Theorem step_size_starts_below_minimum model :
  let s := constructor model in
  step_size_float s = 0%Q ∧
  ¬ (STEP_SIZE_MIN <= step_size_float s)%Q ∧
  step_size_float (update_step_size STEP_POSITIVE_AMOUNT s) = (1 # 10)%Q ∧
  ¬ (STEP_SIZE_MIN <= step_size_float (update_step_size STEP_POSITIVE_AMOUNT s))%Q ∧
  step_size_int (update_step_size STEP_POSITIVE_AMOUNT s) = 0.
Proof. repeat split; vm_compute; congruence. Qed.

(** ** Failed sends *)

Lemma send_prompt_settle_classify prompt e random s :
  send_prompt_settle prompt (Rejected e) random s =
    match classify e with
    | Retryable => schedule_prompt prompt random (update_step_size STEP_NEGATIVE_AMOUNT s)
    | Fatal => Returns (abort (log (fatal_report prompt e) s))
    end.
Proof.
  destruct e as [m c|m]; simpl; [|done]. by destruct (should_retry m c).
Qed.

Lemma existsb_eqb_In c l : existsb (String.eqb c) l = true ↔ In c l.
Proof.
  rewrite existsb_exists. split.
  - intros (x & Hx & Heq). apply String.eqb_eq in Heq. by subst.
  - intros H. exists c. split; [done | apply String.eqb_refl].
Qed.

Lemma should_retry_iff m c :
  should_retry m c = true ↔ In c RETRY_ERRORS ∨ includes m "tokens" = true.
Proof. unfold should_retry. by rewrite orb_true_iff, existsb_eqb_In. Qed.

(** C6: a failed send is retried exactly when its error is a
    [NetworkError] that carries one of the codes 408, 429, 503, 529 or whose
    message indicates a token limit, which the code tests as containing
    "tokens"; then the step is lowered and the prompt rescheduled.  Every
    other failure, an error that is not a [NetworkError] included, is
    fatal: it is logged and aborts the run (the timers are cleared, the
    abort signal is raised, the promise settles with [false] unless it was
    settled before), and neither the queue nor the prompts change. *)
Theorem retryable_iff_network_error e prompt random s :
  (classify e = Retryable ↔
     ∃ m c, e = NetworkError m c ∧ (In c RETRY_ERRORS ∨ includes m "tokens" = true)) ∧
  match classify e with
  | Retryable =>
      send_prompt_settle prompt (Rejected e) random s
      = schedule_prompt prompt random (update_step_size STEP_NEGATIVE_AMOUNT s)
  | Fatal =>
      ∃ s', send_prompt_settle prompt (Rejected e) random s = Returns s' ∧
        aborted s' = true ∧
        completion s' = Some (default false (completion s)) ∧
        console s' = console s ++ [fatal_report prompt e] ∧
        queue s' = queue s ∧ objs s' = objs s ∧
        step_size_float s' = step_size_float s
  end.
Proof.
  split.
  - destruct e as [m c|m]; simpl.
    + destruct (should_retry m c) eqn:E.
      * split; [|done]. intros _. exists m, c. split; [done|]. by apply should_retry_iff.
      * split; [done|]. intros (m' & c' & [= <- <-] & H).
        apply should_retry_iff in H. congruence.
    + split; [done|]. by intros (m' & c' & ? & _).
  - rewrite send_prompt_settle_classify. destruct (classify e); [done|].
    eexists. split; [done|]. unfold abort, resolve. simpl.
    destruct (completion s) eqn:E; simpl; rewrite ?E; repeat split.
Qed.

Lemma retryable_iff_network_error_witness :
  classify (NetworkError "Too Many Requests" "429") = Retryable.
Proof.
  apply (proj1 (retryable_iff_network_error
                  (NetworkError "Too Many Requests" "429") (VPrompt 0) 0
                  (prompter4 [prompt_of 1 2] (replicate 8 VNull) 0))).
  exists "Too Many Requests"%string, "429"%string.
  split; [reflexivity | left; simpl; tauto].
Defined.

(** ** Rescheduling *)

Lemma is_null_true v : is_null v = true → v = VNull.
Proof. by destruct v. Qed.

(** What [schedule_prompt] does with the index that the search returns: on
    a prompt with fewer than ten retries it stores the prompt at that
    index, where the array held [null], and adds one to its [retries],
    touching no other element and logging nothing; when the search returns
    nothing it only logs the failure; on a prompt with ten retries or more
    it only logs the exhaustion.  In the last two cases the queue and the
    prompt objects stay as they were. *)
Theorem schedule_prompt_spec r p random s :
  objs s !! r = Some p →
  (retries p < RETRY_COUNT →
   ∀ i, find_closest_queue_index p random s = Some i →
     aget (queue s) i = VNull ∧
     ∃ s', schedule_prompt (VPrompt r) random s = Returns s' ∧
       aget (queue s') i = VPrompt r ∧
       (∀ j, j ≠ i → aget (queue s') j = aget (queue s) j) ∧
       objs s' !! r = Some (with_retries (retries p + 1) p) ∧
       (∀ r', r' ≠ r → objs s' !! r' = objs s !! r') ∧
       console s' = console s) ∧
  (retries p < RETRY_COUNT →
   find_closest_queue_index p random s = None →
     ∃ s', schedule_prompt (VPrompt r) random s = Returns s' ∧
       console s' = console s ++ [CouldntFindClosestIndex (VPrompt r)] ∧
       queue s' = queue s ∧ objs s' = objs s) ∧
  (RETRY_COUNT ≤ retries p →
     ∃ s', schedule_prompt (VPrompt r) random s = Returns s' ∧
       console s' = console s ++ [ReachedMaximumRetries (VPrompt r)] ∧
       queue s' = queue s ∧ objs s' = objs s).
Proof.
  intros Hp. unfold schedule_prompt. rewrite Hp. split; [|split].
  - intros Hlt i Hi. destruct (Z.ltb_spec (retries p) RETRY_COUNT); [|lia].
    rewrite Hi. split.
    + apply is_null_true. by apply (closest_from_Some _ _ _ Hi).
    + eexists. split; [done|]. simpl.
      split; [apply aget_aset_eq|].
      split; [intros j Hj; by apply aget_aset_ne|].
      split; [apply list_lookup_insert_eq; by eapply lookup_lt_Some|].
      split; [|done]. intros r' Hr'. by apply list_lookup_insert_ne.
  - intros Hlt Hnone. destruct (Z.ltb_spec (retries p) RETRY_COUNT); [|lia].
    rewrite Hnone. by eexists.
  - intros Hge. destruct (Z.ltb_spec (retries p) RETRY_COUNT); [lia|]. by eexists.
Qed.

Lemma schedule_prompt_spec_witness :
  let s := prompter4 [prompt_of 1 2] (VPrompt 0 :: replicate 7 VNull) 1 in
  ∃ s', schedule_prompt (VPrompt 0) 0 s = Returns s' ∧
        aget (queue s') 5 = VPrompt 0 ∧
        objs s' !! 0%nat = Some (prompt_of 1 3).
Proof.
  intros s.
  assert (Hp : objs s !! 0%nat = Some (prompt_of 1 2)) by reflexivity.
  assert (Hlt : retries (prompt_of 1 2) < RETRY_COUNT) by reflexivity.
  assert (Hi : find_closest_queue_index (prompt_of 1 2) 0 s = Some 5%nat)
    by (vm_compute; reflexivity).
  destruct (schedule_prompt_spec 0%nat (prompt_of 1 2) 0 s Hp) as (H1 & _ & _).
  destruct (H1 Hlt 5%nat Hi) as (_ & s' & Hs & Hq & _ & Ho & _).
  exists s'. repeat split; assumption.
Defined.

(** C7 (the code departs from the claim): with [rpm = 4], a prompt whose
    sends all fail with code 429 is sent for the fourth time with three
    retries, fewer than ten, while slots 1 to 7 of the timeline are free.
    The search returns index 8, which is [queue_size]: [schedule_prompt]
    stores the prompt outside the timeline and raises its retries to four.
    The next [shift_queue] erases it: the timeline is empty, the prompt is
    lost, and nothing has been logged. *)
Theorem schedule_prompt_loses_item :
  let s := fourth_send in
  queue_size s = 8%nat ∧
  queue s = VPrompt 0 :: replicate 8 VNull ∧
  sending s = [VPrompt 0] ∧
  objs s = [prompt_of 1 3] ∧
  find_closest_queue_index (prompt_of 1 3) 0 s = Some 8%nat ∧
  let s1 := step s (ChatReturn 0 (Rejected (NetworkError "Too Many Requests" "429")) 0) in
  queue s1 = VPrompt 0 :: replicate 7 VNull ++ [VPrompt 0] ∧
  objs s1 = [prompt_of 1 4] ∧
  console s1 = [] ∧
  let s2 := step s1 ChatResume in
  queue s2 = replicate 9 VNull ∧
  occupied s2 = 0 ∧
  sending s2 = [] ∧
  console s2 = [] ∧
  completion s2 = None.
Proof. vm_compute. repeat split. Qed.


(** ** What each method leaves alone *)

(** [push_prompts_to_queue] changes the queue, the counter and the cursor
    only. *)
Lemma push_prompts_loop_frame n : ∀ prompts qi pi s,
  ∃ q c l, push_prompts_loop n prompts qi pi s
           = with_load_cursor l (with_queue_count c (with_queue q s)).
Proof.
  induction n as [|n IH]; intros prompts qi pi s; simpl.
  - exists (queue s), (queue_count s), (load_cursor s). by destruct s.
  - destruct (is_null _); [destruct (_ =? _)|].
    + eexists _, _, _. reflexivity.
    + edestruct IH as (q & c & l & ->). by exists q, c, l.
    + apply IH.
Qed.

Lemma push_prompts_to_queue_frame prompts s :
  ∃ q c l, push_prompts_to_queue prompts s
           = with_load_cursor l (with_queue_count c (with_queue q s)).
Proof. apply push_prompts_loop_frame. Qed.

Lemma push_prompts_loop_count_le n : ∀ prompts qi pi s,
  queue_count s ≤ queue_count (push_prompts_loop n prompts qi pi s).
Proof.
  induction n as [|n IH]; intros prompts qi pi s; simpl; [lia|].
  destruct (is_null _); [destruct (_ =? _)|].
  - simpl. lia.
  - etrans; [|apply IH]. simpl. lia.
  - apply IH.
Qed.

Lemma send_prompt_end_frame prompt o random s :
  let s' := state_of (send_prompt_end prompt o random s) in
  queue_count s' = queue_count s ∧ step_index s' = step_index s ∧
  queue_size s' = queue_size s ∧ load_threshold s' = load_threshold s ∧
  sending s' = sending s ∧ loading s' = loading s ∧ resuming s' = resuming s.
Proof. unfold_methods. split_cases. Qed.

(** Every event leaves [step_index], [queue_size] and [load_threshold] as
    they are. *)
Lemma step_constants s ev :
  step_index (step s ev) = step_index s ∧
  queue_size (step s ev) = queue_size s ∧
  load_threshold (step s ev) = load_threshold s.
Proof.
  destruct ev as [|response| |i o random| |]; simpl.
  - unfold_methods. split_cases.
  - destruct (loading s) as [|n]; [done|]. unfold load_return.
    destruct (done response); [done|].
    edestruct push_prompts_to_queue_frame as (q & c & l & ->). done.
  - unfold_methods. split_cases.
  - destruct (sending s !! i) as [prompt|]; [|done].
    pose proof (send_prompt_end_frame prompt o random
                  (with_sending (delete i (sending s)) s)) as H.
    simpl in H. destruct (send_prompt_end _ _ _ _); simpl in *;
      by destruct H as (_ & -> & -> & -> & _).
  - unfold_methods. split_cases.
  - unfold_methods. split_cases.
Qed.

Lemma run_constants evs : ∀ s,
  step_index (run s evs) = step_index s ∧
  queue_size (run s evs) = queue_size s ∧
  load_threshold (run s evs) = load_threshold s.
Proof.
  induction evs as [|ev evs IH]; intros s; simpl; [done|].
  destruct (IH (step s ev)) as (-> & -> & ->). apply step_constants.
Qed.

(** ** The skip cadence *)

(** No callback writes [step_index]: it is 0 throughout every run, so the
    test [step_index === 0] of the chat callback never fails. *)
Lemma step_index_zero model evs :
  step_index (run (start (constructor model)) evs) = 0.
Proof. by destruct (run_constants evs (start (constructor model))) as (-> & _). Qed.

(** On every run a tick that finds an item in slot 0 sends it. *)
Lemma chat_tick_always_sends model evs :
  let s := run (start (constructor model)) evs in
  0 < queue_count s → is_null (aget (queue s) 0) = false →
  chat_tick s = send_prompt_begin (aget (queue s) 0) s.
Proof.
  intros s Hcount Hfront. unfold chat_tick. subst s.
  rewrite step_index_zero, Hfront. simpl.
  by destruct (Z.ltb_spec 0 (queue_count (run (start (constructor model)) evs))); [|lia].
Qed.

(** C8 (the code departs from the claim): after fifteen successful sends
    the step is 1.5, its rounding is 2 and [step_size_int] is 3, yet the
    next tick sends the item in slot 0, and so does the tick after it: no
    tick is skipped.  [increment_step_index] counts in [step_size_int], and
    [step_index], which the chat callback tests, stays 0. *)
Theorem chat_tick_never_skips :
  let s15 := loaded_then_sent 15 in
  step_size_float s15 = (3 # 2)%Q ∧
  Math_round (step_size_float s15) = 2 ∧
  step_size_int s15 = 3 ∧
  step_index s15 = 0 ∧
  sending s15 = [] ∧
  sending (step s15 ChatTick) = [VPrompt 15] ∧
  let s16 := run s15 successful_tick in
  Math_round (step_size_float s16) = 2 ∧
  step_size_int s16 = 3 ∧
  sending s16 = [] ∧
  sending (step s16 ChatTick) = [VPrompt 16].
Proof. vm_compute. repeat split. Qed.

(** ** The in-flight counter *)

Lemma schedule_prompt_returns r p random s :
  objs s !! r = Some p →
  ∃ s', schedule_prompt (VPrompt r) random s = Returns s' ∧
        chat_active s' = chat_active s ∧ completion s' = completion s.
Proof.
  intros Hp. unfold schedule_prompt. rewrite Hp.
  destruct (retries p <? RETRY_COUNT); [|by eexists].
  destruct (find_closest_queue_index p random s); by eexists.
Qed.

Lemma chat_active_abort s : chat_active (abort s) = chat_active s.
Proof. unfold abort, resolve. simpl. by destruct (completion s). Qed.

Lemma send_prompt_end_completion prompt o random s :
  completion (state_of (send_prompt_end prompt o random s)) = Some true →
  completion s = Some true.
Proof. unfold_methods. split_cases; congruence. Qed.

Lemma load_return_completion response s :
  completion (load_return response s) = completion s.
Proof.
  unfold load_return. destruct (done response); [done|].
  by edestruct push_prompts_to_queue_frame as (q & c & l & ->).
Qed.

(** ** The counter over runs *)

Lemma step_queue_count s ev :
  queue_count s ≤ queue_count (step s ev) ∧
  ((∀ response, ev ≠ LoadReturn response) → queue_count (step s ev) = queue_count s).
Proof.
  destruct ev as [|response| |i o random| |]; simpl.
  - unfold_methods. split_cases; split; (done || lia).
  - split; [|intros H; by destruct (H response)].
    destruct (loading s) as [|n]; [lia|]. unfold load_return.
    destruct (done response); [simpl; lia|].
    etrans; [|apply push_prompts_loop_count_le]. simpl. lia.
  - unfold_methods. split_cases; split; (done || lia).
  - destruct (sending s !! i) as [prompt|]; [|split; (done || lia)].
    pose proof (send_prompt_end_frame prompt o random
                  (with_sending (delete i (sending s)) s)) as (H & _).
    simpl in H. destruct (send_prompt_end _ _ _ _); simpl in *; rewrite H;
      split; (done || lia).
  - unfold_methods. split_cases; split; (done || lia).
  - unfold_methods. split_cases; split; (done || lia).
Qed.

Lemma run_queue_count evs : ∀ s, queue_count s ≤ queue_count (run s evs).
Proof.
  induction evs as [|ev evs IH]; intros s; simpl; [lia|].
  etrans; [apply (step_queue_count s ev) | apply IH].
Qed.

(** C10: [queue_count] never decreases.  Every event other than the return
    of a load leaves it as it is, and so do [shift_queue] and
    [schedule_prompt]; the return of a load can only raise it.  Hence once
    it has reached [load_threshold], every later load tick returns at once,
    without calling the store. *)
Theorem queue_count_never_decreases s evs :
  (∀ ev, (∀ response, ev ≠ LoadReturn response) →
         queue_count (step s ev) = queue_count s) ∧
  (∀ ev, queue_count s ≤ queue_count (step s ev)) ∧
  queue_count (shift_queue s) = queue_count s ∧
  (∀ prompt random,
     queue_count (state_of (schedule_prompt prompt random s)) = queue_count s) ∧
  queue_count s ≤ queue_count (run s evs) ∧
  (load_threshold s ≤ queue_count s →
   step (run s evs) LoadTick = run s evs ∧ load_tick (run s evs) = run s evs).
Proof.
  split; [intros ev; apply step_queue_count|].
  split; [intros ev; apply step_queue_count|].
  split; [done|].
  split; [intros; apply schedule_prompt_queue_count|].
  split; [apply run_queue_count|].
  intros H.
  assert (Ht : load_tick (run s evs) = run s evs).
  { unfold load_tick. destruct (run_constants evs s) as (_ & _ & ->).
    pose proof (run_queue_count evs s).
    destruct (Z.leb_spec (load_threshold s) (queue_count (run s evs))); [done|lia]. }
  split; [|done]. simpl. rewrite Ht. by destruct (fires _).
Qed.

Lemma queue_count_never_decreases_witness :
  let s := loaded_then_sent 0 in
  load_tick (run s (successful_tick ++ successful_tick)) =
  run s (successful_tick ++ successful_tick).
Proof.
  intros s.
  assert (H : load_threshold s ≤ queue_count s) by (vm_compute; discriminate).
  destruct (queue_count_never_decreases s (successful_tick ++ successful_tick))
    as (_ & _ & _ & _ & _ & Hload).
  exact (proj2 (Hload H)).
Defined.

(** ** Well-formed states are kept by every event *)

Lemma valid_prompt_mono n m v : (n ≤ m)%nat → valid_prompt n v → valid_prompt m v.
Proof. intros H (r & -> & Hr). exists r. split; [done | lia]. Qed.

Lemma valid_slot_mono n m v : (n ≤ m)%nat → valid_slot n v → valid_slot m v.
Proof. intros H [->|Hv]; [by left | right; by eapply valid_prompt_mono]. Qed.

Lemma Forall_aset (P : value → Prop) q i v :
  (i ≤ length q)%nat → P v → Forall P q → Forall P (aset q i v).
Proof.
  intros Hi Hv Hq. unfold aset. destruct (Nat.ltb_spec i (length q)) as [Hlt|Hge].
  - by apply Forall_insert.
  - replace (i - length q)%nat with 0%nat by lia. simpl.
    apply Forall_app. split; [done | by constructor].
Qed.

Lemma Forall_aget (P : value → Prop) q i :
  (i < length q)%nat → Forall P q → P (aget q i).
Proof.
  intros Hi Hq. unfold aget. destruct (lookup_lt_is_Some_2 q i Hi) as [v Hv].
  rewrite Hv. simpl. by eapply Forall_lookup_1.
Qed.

Lemma shift_loop_Forall (P : value → Prop) n : ∀ k q,
  (k + n < length q)%nat → Forall P q → Forall P (shift_loop n k q).
Proof.
  induction n as [|n IH]; intros k q Hk Hq; simpl; [done|].
  apply IH; [rewrite length_aset; lia|].
  apply Forall_aset; [lia | apply Forall_aget; [lia | done] | done].
Qed.

Lemma shift_queue_well_typed s : well_typed s → well_typed (shift_queue s).
Proof.
  intros [Hsize Hlen Hq Hs]. split; try done.
  - simpl. rewrite length_aset. lia.
  - simpl. simpl in Hsize.
    assert (Hl : length (shift_loop (queue_size s - 1) 0 (queue s)) = length (queue s))
      by (apply shift_loop_length; lia).
    apply Forall_aset; [lia | by left |].
    apply shift_loop_Forall; [lia | done].
Qed.

Lemma with_chat_active_well_typed x s :
  well_typed s → well_typed (with_chat_active x s).
Proof. by intros []. Qed.

Lemma abort_well_typed s : well_typed s → well_typed (abort s).
Proof. intros []. unfold abort, resolve. simpl. by destruct (completion s). Qed.

Lemma element_valid n (prompts : list ref) i :
  (i < length prompts)%nat → Forall (λ r : ref, r < n)%nat prompts →
  valid_slot n (element prompts i).
Proof.
  intros Hi Hp. unfold element.
  destruct (lookup_lt_is_Some_2 prompts i Hi) as [r Hr]. rewrite Hr.
  right. exists r. split; [done|]. by eapply (Forall_lookup_1 _ _ _ _ Hp).
Qed.

Lemma push_prompts_loop_queue N n : ∀ (prompts : list ref) qi pi s,
  (qi + n = queue_size s)%nat → (queue_size s ≤ length (queue s))%nat →
  (pi < length prompts)%nat → Forall (λ r : ref, r < N)%nat prompts →
  Forall (valid_slot N) (queue s) →
  Forall (valid_slot N) (queue (push_prompts_loop n prompts qi pi s)) ∧
  length (queue (push_prompts_loop n prompts qi pi s)) = length (queue s).
Proof.
  induction n as [|n IH]; intros prompts qi pi s Hn Hlen Hpi Hp Hq; simpl; [done|].
  destruct (is_null (aget (queue s) qi)) eqn:Hnull; [|apply IH; (done || lia)].
  assert (Hq' : Forall (valid_slot N) (aset (queue s) qi (element prompts pi))).
  { apply Forall_aset; [lia | by apply element_valid | done]. }
  assert (Hl' : length (aset (queue s) qi (element prompts pi)) = length (queue s)).
  { rewrite length_aset. lia. }
  destruct (Z.eqb_spec (Z.of_nat pi) (Z.of_nat (length prompts) - 1)) as [Heq|Hne].
  - done.
  - rewrite <- Hl'. apply IH; simpl; (done || lia).
Qed.

Lemma load_return_well_typed response s :
  (done response = false → data response ≠ []) →
  well_typed s → well_typed (load_return response s).
Proof.
  intros Hc [Hsize Hlen Hq Hs]. unfold load_return.
  destruct (done response); [done|].
  set (s1 := with_objs (objs s ++ data response) s).
  set (prompts := seq (length (objs s)) (length (data response))).
  destruct (push_prompts_loop_queue (length (objs s1)) (queue_size s1) prompts 0 0 s1)
    as [Hq' Hl']; try done.
  - subst prompts. rewrite length_seq.
    destruct (data response); [by destruct Hc | simpl; lia].
  - subst prompts s1. simpl. rewrite length_app. apply Forall_seq. intros; lia.
  - subst s1. simpl. rewrite length_app.
    eapply Forall_impl; [done|]. intros v. apply valid_slot_mono. lia.
  - unfold push_prompts_to_queue.
    destruct (push_prompts_loop_frame (queue_size s1) prompts 0 0 s1) as (q & c & l & E).
    rewrite E in *. subst s1. simpl in *. split; simpl; try done.
    + lia.
    + rewrite length_app.
      eapply Forall_impl; [done|]. intros v. apply valid_prompt_mono. lia.
Qed.

Lemma load_return_sending response s :
  sending (load_return response s) = sending s ∧
  chat_active (load_return response s) = chat_active s.
Proof.
  unfold load_return. destruct (done response); [done|].
  by edestruct push_prompts_to_queue_frame as (q & c & l & ->).
Qed.

(** On a prompt object [schedule_prompt] returns. *)
Lemma schedule_prompt_well_typed v random s :
  well_typed s → valid_prompt (length (objs s)) v →
  ∃ s', schedule_prompt v random s = Returns s' ∧ well_typed s' ∧
        length (objs s') = length (objs s) ∧
        chat_active s' = chat_active s ∧ sending s' = sending s.
Proof.
  intros [Hsize Hlen Hq Hs] (r & -> & Hr). unfold schedule_prompt.
  destruct (lookup_lt_is_Some_2 _ _ Hr) as [p Hp]. rewrite Hp.
  destruct (retries p <? RETRY_COUNT); [|by eexists].
  destruct (find_closest_queue_index p random s) as [i|] eqn:Hi; [|by eexists].
  eexists. split; [done|]. simpl. rewrite length_insert. split; [|done].
  apply closest_from_Some in Hi as [_ Hi].
  specialize (Hi (exact_index_le p random s)).
  split; simpl; rewrite ?length_insert; try done.
  - rewrite length_aset. lia.
  - apply Forall_aset; [lia | | done]. right. by exists r.
Qed.

(** On a prompt object [send_prompt] runs to its end, whatever the
    outcome of the call. *)
Lemma send_prompt_end_well_typed v o random s :
  well_typed s → valid_prompt (length (objs s)) v →
  ∃ s', send_prompt_end v o random s = Returns s' ∧ well_typed s' ∧
        chat_active s' = chat_active s - 1 ∧ sending s' = sending s.
Proof.
  intros Hwt Hv. unfold send_prompt_end, send_prompt_settle.
  destruct o as [output|[m c|m]].
  - eexists. split; [done|]. by destruct Hwt.
  - destruct (should_retry m c).
    + destruct (schedule_prompt_well_typed v random
                  (update_step_size STEP_NEGATIVE_AMOUNT s))
        as (s' & -> & Hwt' & _ & Hc & Hs); [by destruct Hwt | done |].
      eexists. split; [done|]. simpl. rewrite Hc. split; [by destruct Hwt' | done].
    + eexists. split; [done|]. simpl. rewrite chat_active_abort.
      split; [|split; [done|]].
      * apply with_chat_active_well_typed, abort_well_typed. by destruct Hwt.
      * unfold abort, resolve. simpl. by destruct (completion s).
  - eexists. split; [done|]. simpl. rewrite chat_active_abort.
    split; [|split; [done|]].
    + apply with_chat_active_well_typed, abort_well_typed. by destruct Hwt.
    + unfold abort, resolve. simpl. by destruct (completion s).
Qed.

Lemma step_well_formed s ev :
  well_formed s → store_contract ev → well_formed (step s ev).
Proof.
  intros [Hwt Ha] Hc. pose proof Hwt as [Hsize Hlen Hq Hs].
  destruct ev as [|response| |i o random| |]; simpl.
  - destruct (fires _); [|done]. unfold load_tick. by destruct (_ <=? _).
  - destruct (loading s) as [|n]; [done|]. split.
    + apply load_return_well_typed; [done | by split].
    + by destruct (load_return_sending response (with_loading n s)) as [-> ->].
  - destruct (fires _); [|done]. unfold chat_tick.
    destruct (0 <? queue_count s); [|done].
    destruct (step_index s =? 0); simpl.
    2: { split; [|done]. apply shift_queue_well_typed. by split. }
    destruct (is_null (aget (queue s) 0)) eqn:Hnull; simpl.
    { split; [|done]. apply shift_queue_well_typed. by split. }
    split.
    + split; simpl; try done. apply Forall_app. split; [done|]. constructor; [|done].
      assert (Hv : valid_slot (length (objs s)) (aget (queue s) 0))
        by (apply Forall_aget; [lia | done]).
      destruct Hv as [Hv|Hv]; [|done]. by rewrite Hv in Hnull.
    + simpl. rewrite length_app. simpl. lia.
  - destruct (sending s !! i) as [v|] eqn:Hi; [|done].
    destruct (send_prompt_end_well_typed v o random
                (with_sending (delete i (sending s)) s))
      as (s' & -> & Hwt' & Hc' & Hs').
    { split; simpl; try done. by apply Forall_delete. }
    { simpl. by eapply (Forall_lookup_1 _ _ _ _ Hs). }
    simpl in *. split; [by destruct Hwt'|]. simpl. rewrite Hc', Hs', Ha.
    rewrite length_delete by done. apply lookup_lt_Some in Hi. lia.
  - destruct (resuming s) as [|n]; [done|]. split; [|done].
    apply shift_queue_well_typed. by split.
  - destruct (fires _); [|done]. unfold wait_tick. destruct (_ =? _); [|done].
    unfold resolve. simpl. by destruct (completion s).
Qed.

Lemma run_well_formed evs : ∀ s,
  well_formed s → Forall store_contract evs → well_formed (run s evs).
Proof.
  induction evs as [|ev evs IH]; intros s Hwf Hc; simpl; [done|].
  inversion Hc; subst. apply IH; [by apply step_well_formed | done].
Qed.

Lemma start_well_formed model :
  (0 < rpm model)%nat → well_formed (start (constructor model)).
Proof.
  intros H. split; [|done]. split; simpl.
  - lia.
  - by rewrite length_replicate.
  - apply Forall_replicate. by left.
  - done.
Qed.

(** ** The in-flight counter over runs *)

Lemma send_prompt_end_counts r p o random s :
  objs s !! r = Some p →
  ∃ s', send_prompt_end (VPrompt r) o random s = Returns s' ∧
        chat_active s' = chat_active s - 1.
Proof.
  intros Hp. unfold send_prompt_end, send_prompt_settle.
  destruct o as [output|[m c|m]].
  { eexists. split; reflexivity. }
  2: { eexists. split; [reflexivity|]. simpl. by rewrite chat_active_abort. }
  destruct (should_retry m c).
  2: { eexists. split; [reflexivity|]. simpl. by rewrite chat_active_abort. }
  destruct (schedule_prompt_returns r p random
              (update_step_size STEP_NEGATIVE_AMOUNT s) Hp) as (s' & -> & Hc & _).
  eexists. split; [done|]. simpl. by rewrite Hc.
Qed.

Lemma step_settles_true s ev :
  completion s ≠ Some true → completion (step s ev) = Some true →
  ev = WaitTick ∧ chat_active s = 0.
Proof.
  intros Hpending Hdone. destruct ev as [|response| |i o' random'| |]; simpl in Hdone.
  - exfalso. revert Hdone. unfold_methods. split_cases.
  - exfalso. destruct (loading s); [done|].
    by rewrite load_return_completion in Hdone.
  - exfalso. revert Hdone. unfold_methods. split_cases.
  - exfalso. destruct (sending s !! i) as [prompt|]; [|done].
    pose proof (send_prompt_end_completion prompt o' random'
                  (with_sending (delete i (sending s)) s)) as H.
    destruct (send_prompt_end _ _ _ _); simpl in *; by apply Hpending, H.
  - exfalso. revert Hdone. unfold_methods. split_cases.
  - split; [done|]. revert Hdone. unfold_methods.
    destruct (fires _); [|done]. destruct (Z.eqb_spec (chat_active s) 0); done.
Qed.

(** C9: [send_prompt] adds one to [chat_active] before it awaits the
    runner, and takes one off when the call settles, whether it succeeded,
    failed with an error that is retried, or failed with any other error.
    Whatever happens to a [Prompter], its promise settles with [true] only
    in the wait callback and only when [chat_active] is 0.  Over every run
    of a started [Prompter] in which the store keeps its contract,
    [chat_active] is the number of sends that await the runner. *)
Theorem chat_active_counts_sends :
  (∀ r p o random s,
     objs s !! r = Some p →
     chat_active (send_prompt_begin (VPrompt r) s) = chat_active s + 1 ∧
     ∃ s', send_prompt_end (VPrompt r) o random s = Returns s' ∧
           chat_active s' = chat_active s - 1) ∧
  (∀ s ev,
     completion s ≠ Some true → completion (step s ev) = Some true →
     ev = WaitTick ∧ chat_active s = 0) ∧
  (∀ model evs,
     (0 < rpm model)%nat → Forall store_contract evs →
     let s := run (start (constructor model)) evs in
     chat_active s = Z.of_nat (length (sending s)) ∧
     Forall (valid_prompt (length (objs s))) (sending s)).
Proof.
  split; [|split].
  - intros r p o random s Hp. split; [done | by eapply send_prompt_end_counts].
  - apply step_settles_true.
  - intros model evs Hrpm Hc s.
    destruct (run_well_formed evs (start (constructor model))) as [[] ?];
      [by apply start_well_formed | done | done].
Qed.

Lemma chat_active_counts_sends_witness :
  let s := send_prompt_begin (VPrompt 0)
             (prompter4 [prompt_of 1 0] (VPrompt 0 :: replicate 7 VNull) 1) in
  ∃ s', send_prompt_end (VPrompt 0) (Rejected (NetworkError "Too Many Requests" "429")) 0 s
        = Returns s' ∧ chat_active s' = 0.
Proof.
  intros s.
  assert (Hp : objs s !! 0%nat = Some (prompt_of 1 0)) by reflexivity.
  destruct chat_active_counts_sends as (Hsend & _ & _).
  destruct (Hsend 0%nat (prompt_of 1 0)
              (Rejected (NetworkError "Too Many Requests" "429")) 0%Q s Hp)
    as (_ & s' & Hs & Hc).
  exists s'. split; [exact Hs | exact Hc].
Defined.

(** * Further properties of the scheduler *)

(** ** Loading into the timeline *)

Lemma free_in_aset_before q i v k n :
  (i < k)%nat → free_in (aset q i v) k n = free_in q k n.
Proof.
  revert k. induction n as [|n IH]; intros k Hk; simpl; [done|].
  rewrite aget_aset_ne by lia. by rewrite IH by lia.
Qed.

Lemma push_prompts_loop_get n : ∀ prompts qi pi s j,
  (j < qi)%nat ∨ (qi + n ≤ j)%nat ∨ is_null (aget (queue s) j) = false →
  aget (queue (push_prompts_loop n prompts qi pi s)) j = aget (queue s) j.
Proof.
  induction n as [|n IH]; intros prompts qi pi s j Hj; simpl; [done|].
  assert (Hne : is_null (aget (queue s) qi) = true → qi ≠ j).
  { intros Hnull ->. destruct Hj as [?|[?|Hj]]; [lia | lia | congruence]. }
  destruct (is_null (aget (queue s) qi)) eqn:Hnull.
  - destruct (_ =? _); simpl.
    + apply aget_aset_ne. by apply Hne.
    + rewrite IH; simpl; rewrite aget_aset_ne by (by apply Hne); [done|].
      destruct Hj as [?|[?|?]]; [left; lia | right; left; lia | by right; right].
  - apply IH. destruct (decide (j = qi)) as [->|]; [by right; right|].
    destruct Hj as [?|[?|?]]; [left; lia | right; left; lia | by right; right].
Qed.

(** X1: [push_prompts_to_queue] never overwrites a slot that is not [null]
    and never writes at or beyond index [queue_size]; the prompt objects
    and the pending sends are not touched. *)
Theorem push_prompts_to_queue_keeps prompts s j :
  is_null (aget (queue s) j) = false ∨ (queue_size s ≤ j)%nat →
  aget (queue (push_prompts_to_queue prompts s)) j = aget (queue s) j ∧
  objs (push_prompts_to_queue prompts s) = objs s ∧
  sending (push_prompts_to_queue prompts s) = sending s.
Proof.
  intros Hj. split.
  - apply push_prompts_loop_get. destruct Hj; [by right; right | right; left; lia].
  - by destruct (push_prompts_to_queue_frame prompts s) as (q & c & l & ->).
Qed.

Lemma push_prompts_to_queue_keeps_witness :
  let s := prompter4 (eight_prompts 0) only_front_free 7 in
  aget (queue (push_prompts_to_queue [0%nat] s)) 3 = VPrompt 3.
Proof.
  intros s.
  assert (H : is_null (aget (queue s) 3) = false ∨ (queue_size s ≤ 3)%nat)
    by (left; reflexivity).
  exact (proj1 (push_prompts_to_queue_keeps [0%nat] s 3%nat H)).
Defined.

Lemma element_id_frame prompts i s q c :
  element_id (with_queue_count c (with_queue q s)) prompts i = element_id s prompts i.
Proof. reflexivity. Qed.

(** The loop of [push_prompts_to_queue] from any point on: it fills as many
    free slots as there are prompts left, and moves the cursor only when it
    reaches the last prompt. *)
Lemma push_prompts_loop_count n : ∀ (prompts : list ref) qi pi s,
  (pi < length prompts)%nat →
  let free := free_in (queue s) qi n in
  let left := (length prompts - pi)%nat in
  let s' := push_prompts_loop n prompts qi pi s in
  queue_count s' = queue_count s + Z.of_nat (Nat.min free left) ∧
  load_cursor s' =
    (if (left <=? free)%nat then element_id s prompts (length prompts - 1)
     else load_cursor s).
Proof.
  induction n as [|n IH]; intros prompts qi pi s Hpi; cbn [push_prompts_loop free_in].
  - split; [lia|]. by destruct (Nat.leb_spec (length prompts - pi) 0); [lia|].
  - destruct (is_null (aget (queue s) qi)) eqn:Hnull; cbn [push_prompts_loop free_in].
    + destruct (Z.eqb_spec (Z.of_nat pi) (Z.of_nat (length prompts) - 1)) as [Hlast|Hmore].
      * assert (Hl : (length prompts - pi = 1)%nat) by lia. rewrite Hl.
        split; [simpl; lia|].
        destruct (Nat.leb_spec 1 (1 + free_in (queue s) (S qi) n)); [|lia].
        replace pi with (length prompts - 1)%nat by lia. reflexivity.
      * destruct (IH prompts (S qi) (S pi)
                    (with_queue_count (queue_count (with_queue (aset (queue s) qi (element prompts pi)) s) + 1)
                       (with_queue (aset (queue s) qi (element prompts pi)) s)))
          as [Hc Hl]; [lia|].
        rewrite Hc, Hl. cbn [queue queue_count load_cursor with_queue with_queue_count].
        rewrite free_in_aset_before by lia.
        split; [lia|].
        rewrite element_id_frame.
        destruct (Nat.leb_spec (length prompts - S pi) (free_in (queue s) (S qi) n));
          destruct (Nat.leb_spec (length prompts - pi) (1 + free_in (queue s) (S qi) n));
          (done || lia).
    + apply IH. done.
Qed.

(** X2: given at least one prompt, [push_prompts_to_queue] raises
    [queue_count] by the smaller of the number of free slots and the number
    of prompts.  When the prompts all fit, [load_cursor] becomes the id of
    the last one; when they do not, the prompts in excess are left out and
    [load_cursor] stays where it was. *)
Theorem push_prompts_to_queue_count (prompts : list ref) s :
  prompts ≠ [] →
  let s' := push_prompts_to_queue prompts s in
  queue_count s' = queue_count s + Z.of_nat (Nat.min (free_slots s) (length prompts)) ∧
  ((length prompts ≤ free_slots s)%nat →
   load_cursor s' = element_id s prompts (length prompts - 1)) ∧
  ((free_slots s < length prompts)%nat → load_cursor s' = load_cursor s).
Proof.
  intros Hne s'.
  assert (Hlen : (0 < length prompts)%nat) by (destruct prompts; [done | simpl; lia]).
  destruct (push_prompts_loop_count (queue_size s) prompts 0 0 s Hlen) as [Hc Hl].
  rewrite Nat.sub_0_r in Hc, Hl. fold (free_slots s) in Hc, Hl.
  split; [done|]. split; intros H; subst s'; unfold push_prompts_to_queue; rewrite Hl.
  - by destruct (Nat.leb_spec (length prompts) (free_slots s)); [|lia].
  - by destruct (Nat.leb_spec (length prompts) (free_slots s)); [lia|].
Qed.

Lemma push_prompts_to_queue_count_witness :
  let s := prompter4 (eight_prompts 0) only_front_free 7 in
  let s' := push_prompts_to_queue [0; 1]%nat (with_load_cursor 5 s) in
  queue_count s' = 8 ∧ load_cursor s' = 5.
Proof.
  intros s s'.
  assert (Hne : [0; 1]%nat ≠ @nil nat) by discriminate.
  destruct (push_prompts_to_queue_count [0; 1]%nat (with_load_cursor 5 s) Hne)
    as (Hc & _ & Hl).
  split; [exact Hc | apply Hl; vm_compute; lia].
Defined.

Lemma push_prompts_loop_empty n : ∀ qi pi s,
  let s' := push_prompts_loop n [] qi pi s in
  (∀ j, aget (queue s') j =
        if bool_decide (qi ≤ j < qi + n)%nat && is_null (aget (queue s) j)
        then VUndefined else aget (queue s) j) ∧
  queue_count s' = queue_count s + Z.of_nat (free_in (queue s) qi n) ∧
  load_cursor s' = load_cursor s.
Proof.
  induction n as [|n IH]; intros qi pi s; simpl.
  - split; [|split; (done || lia)]. intros j.
    by rewrite bool_decide_eq_false_2 by lia.
  - destruct (is_null (aget (queue s) qi)) eqn:Hnull.
    + destruct (Z.eqb_spec (Z.of_nat pi) (Z.of_nat 0 - 1)) as [|_]; [lia|].
      destruct (IH (S qi) (S pi)
                  (with_queue_count (queue_count s + 1)
                     (with_queue (aset (queue s) qi (element [] pi)) s)))
        as (Hq & Hc & Hl).
      simpl in Hq, Hc, Hl. rewrite free_in_aset_before in Hc by lia.
      split; [|split; [lia | done]].
      intros j. rewrite Hq. destruct (decide (j = qi)) as [->|Hne].
      * rewrite aget_aset_eq, Hnull. rewrite bool_decide_eq_false_2 by lia.
        rewrite bool_decide_eq_true_2 by lia. done.
      * rewrite aget_aset_ne by done.
        destruct (is_null (aget (queue s) j)); [|by rewrite !andb_false_r].
        rewrite !andb_true_r.
        case_bool_decide; case_bool_decide; (done || lia).
    + destruct (IH (S qi) pi s) as (Hq & Hc & Hl).
      split; [|split; [lia | done]].
      intros j. rewrite Hq. destruct (decide (j = qi)) as [->|Hne].
      * by rewrite Hnull, !andb_false_r.
      * destruct (is_null (aget (queue s) j)); [|by rewrite !andb_false_r].
        rewrite !andb_true_r.
        case_bool_decide; case_bool_decide; (done || lia).
Qed.

(** X3: given an empty list of prompts, [push_prompts_to_queue] turns every
    free slot of the timeline into [undefined] and counts each of them in
    [queue_count]; [load_cursor] stays where it was. *)
Theorem push_prompts_to_queue_empty s j :
  let s' := push_prompts_to_queue [] s in
  aget (queue s') j =
    (if bool_decide (j < queue_size s)%nat && is_null (aget (queue s) j)
     then VUndefined else aget (queue s) j) ∧
  queue_count s' = queue_count s + Z.of_nat (free_slots s) ∧
  load_cursor s' = load_cursor s.
Proof.
  destruct (push_prompts_loop_empty (queue_size s) 0 0 s) as (Hq & Hc & Hl).
  split; [|done]. simpl. unfold push_prompts_to_queue. rewrite Hq.
  destruct (is_null (aget (queue s) j)); [|by rewrite !andb_false_r].
  rewrite !andb_true_r. case_bool_decide; case_bool_decide; (done || lia).
Qed.

(** ** Advancing the timeline *)

Lemma shifts_queue_size k s : queue_size (shifts k s) = queue_size s.
Proof. induction k as [|k IH]; simpl; [done | by rewrite <- IH]. Qed.

(** X4: after [k] calls of [shift_queue] slot [j] of the timeline holds what
    slot [j + k] held, and the slots for which [j + k] falls beyond the last
    slot all hold what the last slot held: the content of the last slot is
    never cleared, it spreads downwards. *)
Theorem shifts_get k s j :
  (j < queue_size s)%nat →
  aget (queue (shifts k s)) j = aget (queue s) (Nat.min (j + k) (queue_size s - 1)).
Proof.
  revert j. induction k as [|k IH]; intros j Hj.
  - simpl. f_equal. lia.
  - change (shifts (S k) s) with (shift_queue (shifts k s)).
    rewrite shift_queue_get, shifts_queue_size.
    rewrite decide_False by lia. case_bool_decide as Hlast.
    + rewrite IH by lia. f_equal. lia.
    + rewrite IH by lia. f_equal. lia.
Qed.

Lemma shifts_get_witness :
  let s := prompter4 [prompt_of 1 0] (replicate 7 VNull ++ [VPrompt 0]) 1 in
  aget (queue (shifts 3 s)) 4 = VPrompt 0.
Proof.
  intros s.
  assert (H : (4 < queue_size s)%nat) by (vm_compute; lia).
  rewrite (shifts_get 3 s 4 H). reflexivity.
Defined.

(** ** The search for a free slot, continued *)

(** X5: the slot returned by [find_closest_queue_index] holds [null] and its
    index is at most [queue_size]. *)
Theorem find_closest_queue_index_sound p random s i :
  find_closest_queue_index p random s = Some i →
  aget (queue s) i = VNull ∧ (i ≤ queue_size s)%nat.
Proof.
  intros H. apply closest_from_Some in H as [Hnull Hle].
  split; [by apply is_null_true | apply Hle, exact_index_le].
Qed.

Lemma find_closest_queue_index_sound_witness :
  let s := prompter4 [prompt_of 1 2] (VPrompt 0 :: replicate 7 VNull) 1 in
  aget (queue s) 5 = VNull.
Proof.
  intros s.
  assert (H : find_closest_queue_index (prompt_of 1 2) 0 s = Some 5%nat)
    by (vm_compute; reflexivity).
  exact (proj1 (find_closest_queue_index_sound (prompt_of 1 2) 0 s 5%nat H)).
Defined.

(** X6: for a prompt whose retries are not negative,
    [find_closest_queue_index] finds a slot whenever some slot of the
    timeline other than slot 0 is free. *)
Theorem find_closest_queue_index_complete p random s j :
  0 ≤ retries p →
  (1 ≤ j < queue_size s)%nat → aget (queue s) j = VNull →
  ∃ i, find_closest_queue_index p random s = Some i.
Proof.
  intros _ Hj Hnull.
  destruct (find_closest_queue_index p random s) as [i|] eqn:E; [by exists i|].
  apply closest_from_None in E as [Hall _]; [|apply exact_index_le].
  specialize (Hall j Hj). by rewrite Hnull in Hall.
Qed.

Lemma find_closest_queue_index_complete_witness :
  let s := prompter4 (eight_prompts 9)
             [VPrompt 0; VNull; VPrompt 2; VPrompt 3; VPrompt 4; VPrompt 5;
              VPrompt 6; VPrompt 7] 7 in
  ∃ i, find_closest_queue_index (prompt_of 1 9) 0 s = Some i.
Proof.
  intros s.
  apply (find_closest_queue_index_complete (prompt_of 1 9) 0 s 1%nat).
  - simpl. lia.
  - vm_compute. lia.
  - reflexivity.
Defined.

(** X7: when the target slot is occupied and a slot above it is free, the
    search returns the lowest free slot above the target, however close a
    free slot below the target may be. *)
Theorem find_closest_queue_index_upward p random s j :
  let e := exact_index p random s in
  is_null (aget (queue s) e) = false →
  (e < j < queue_size s)%nat → aget (queue s) j = VNull →
  ∃ i, find_closest_queue_index p random s = Some i ∧
       (e < i ≤ j)%nat ∧ aget (queue s) i = VNull ∧
       ∀ k, (e < k < i)%nat → is_null (aget (queue s) k) = false.
Proof.
  intros e He Hj Hnull. unfold find_closest_queue_index, closest_from.
  fold e. rewrite He.
  destruct (Nat.ltb_spec e (queue_size s)) as [_|]; [|lia].
  destruct (scan_higher _ _ _) as [h|] eqn:Hh.
  - exists h. split; [done|]. apply scan_higher_Some in Hh as (Hr & Hn & Hb).
    assert (h ≤ j)%nat.
    { destruct (Nat.lt_ge_cases j h) as [Hlt|]; [|done].
      pose proof (Hb j ltac:(lia)) as Hc. by rewrite Hnull in Hc. }
    split; [lia|]. split; [by apply is_null_true|]. intros k Hk. apply Hb. lia.
  - pose proof (scan_higher_None _ _ _ Hh j) as Hno.
    rewrite Hnull in Hno. discriminate Hno. lia.
Qed.

Lemma find_closest_queue_index_upward_witness :
  let s := prompter4 (eight_prompts 1)
             [VPrompt 0; VNull; VPrompt 2; VPrompt 3; VPrompt 4; VPrompt 5;
              VPrompt 6; VNull] 6 in
  ∃ i, find_closest_queue_index (prompt_of 1 1) 0 s = Some i ∧ (2 < i ≤ 7)%nat.
Proof.
  intros s.
  assert (He : is_null (aget (queue s) (exact_index (prompt_of 1 1) 0 s)) = false)
    by (vm_compute; reflexivity).
  assert (Hj : (exact_index (prompt_of 1 1) 0 s < 7 < queue_size s)%nat)
    by (vm_compute; lia).
  assert (Hn : aget (queue s) 7 = VNull) by reflexivity.
  destruct (find_closest_queue_index_upward (prompt_of 1 1) 0 s 7%nat He Hj Hn)
    as (i & Hi & Hr & _).
  exists i. split; [exact Hi|]. revert Hr. vm_compute. lia.
Defined.

(** ** The throttle over runs *)

Lemma schedule_prompt_frame v random s :
  let s' := state_of (schedule_prompt v random s) in
  step_size_float s' = step_size_float s ∧ chat_active s' = chat_active s ∧
  completion s' = completion s ∧ aborted s' = aborted s ∧
  load_interval s' = load_interval s ∧ chat_interval s' = chat_interval s ∧
  wait_interval s' = wait_interval s ∧ queue_size s' = queue_size s.
Proof. unfold_methods. split_cases. Qed.

Lemma send_prompt_end_step_size v o random s :
  let f' := step_size_float (state_of (send_prompt_end v o random s)) in
  f' = step_size_float s ∨
  f' = step_size_float (update_step_size STEP_POSITIVE_AMOUNT s) ∨
  f' = step_size_float (update_step_size STEP_NEGATIVE_AMOUNT s).
Proof.
  unfold send_prompt_end, send_prompt_settle.
  destruct o as [output|[m c|m]].
  - right. left. reflexivity.
  - destruct (should_retry m c).
    + right. right.
      destruct (schedule_prompt_frame v random (update_step_size STEP_NEGATIVE_AMOUNT s))
        as (H & _).
      revert H. generalize (schedule_prompt v random (update_step_size STEP_NEGATIVE_AMOUNT s)).
      intros [s1|s1] H; exact H.
    + left. cbn [state_of]. unfold abort, resolve. cbn. by destruct (completion s).
  - left. cbn [state_of]. unfold abort, resolve. cbn. by destruct (completion s).
Qed.

Lemma step_step_size s ev :
  let f' := step_size_float (step s ev) in
  f' = step_size_float s ∨
  f' = step_size_float (update_step_size STEP_POSITIVE_AMOUNT s) ∨
  f' = step_size_float (update_step_size STEP_NEGATIVE_AMOUNT s).
Proof.
  destruct ev as [|response| |i o random| |]; simpl.
  - left. unfold_methods. split_cases.
  - left. destruct (loading s); [done|]. unfold load_return.
    destruct (done response); [done|].
    by edestruct push_prompts_to_queue_frame as (q & c & l & ->).
  - left. unfold_methods. split_cases.
  - destruct (sending s !! i) as [v|]; [|by left].
    pose proof (send_prompt_end_step_size v o random
                  (with_sending (delete i (sending s)) s)) as H.
    by destruct (send_prompt_end _ _ _ _).
  - left. unfold_methods. split_cases.
  - left. unfold_methods. split_cases.
Qed.

Lemma update_step_size_nonneg v s :
  (0 <= step_size_float s)%Q → (v = STEP_POSITIVE_AMOUNT ∨ v = STEP_NEGATIVE_AMOUNT) →
  (0 <= step_size_float (update_step_size v s))%Q.
Proof.
  intros Hs [-> | ->]; unfold update_step_size, Qltb; simpl; rewrite Qred_correct.
  - apply Q.min_glb; [|done].
    rewrite <- (Qplus_0_r 0). by apply Qplus_le_compat.
  - apply Qle_trans with STEP_SIZE_MIN; [done | apply Q.le_max_r].
Qed.

(** X8: on every run the step of the throttle stays between 0 and
    [STEP_SIZE_MAX]. *)
Theorem step_size_float_bounds model evs :
  (0 <= step_size_float (run (start (constructor model)) evs) <= STEP_SIZE_MAX)%Q.
Proof.
  assert (H : ∀ evs s, (0 <= step_size_float s <= STEP_SIZE_MAX)%Q →
                (0 <= step_size_float (run s evs) <= STEP_SIZE_MAX)%Q).
  { clear. induction evs as [|ev evs IH]; intros s Hs; simpl; [done|].
    apply IH. destruct Hs as [Hlo Hhi].
    destruct (step_step_size s ev) as [-> | [-> | ->]]; [done| |].
    - split; [apply update_step_size_nonneg; auto|].
      apply update_step_size_upper; [done | by right].
    - split; [apply update_step_size_nonneg; auto|].
      apply update_step_size_upper; [done | by left]. }
  apply H. simpl. split; done.
Qed.

(** X9: once the step of the throttle is between [STEP_SIZE_MIN] and
    [STEP_SIZE_MAX], it stays there whatever happens. *)
Theorem step_size_float_range s evs :
  (STEP_SIZE_MIN <= step_size_float s <= STEP_SIZE_MAX)%Q →
  (STEP_SIZE_MIN <= step_size_float (run s evs) <= STEP_SIZE_MAX)%Q.
Proof.
  revert s. induction evs as [|ev evs IH]; intros s Hs; simpl; [done|].
  apply IH. destruct (step_step_size s ev) as [-> | [-> | ->]];
    [done | by apply update_step_size_range | by apply update_step_size_range].
Qed.

Lemma step_size_float_range_witness :
  let s := loaded_then_sent 15 in
  (STEP_SIZE_MIN <= step_size_float (run s successful_tick) <= STEP_SIZE_MAX)%Q.
Proof.
  intros s. apply (step_size_float_range s successful_tick).
  vm_compute. split; discriminate.
Defined.

(** X10: a send that fails with an error that is retried leaves the step of
    the throttle at [STEP_SIZE_MIN] or above, whatever it was before. *)
Theorem retryable_failure_restores_minimum v m c random s :
  should_retry m c = true →
  (STEP_SIZE_MIN <=
     step_size_float (state_of (send_prompt_end v (Rejected (NetworkError m c)) random s)))%Q.
Proof.
  intros Hr. unfold send_prompt_end, send_prompt_settle. rewrite Hr.
  destruct (schedule_prompt_frame v random (update_step_size STEP_NEGATIVE_AMOUNT s))
    as (H & _).
  assert (Hm : (STEP_SIZE_MIN <=
                step_size_float (update_step_size STEP_NEGATIVE_AMOUNT s))%Q).
  { unfold update_step_size, Qltb. simpl. rewrite Qred_correct. apply Q.le_max_r. }
  destruct (schedule_prompt _ _ _); simpl in *; by rewrite H.
Qed.

Lemma retryable_failure_restores_minimum_witness :
  (STEP_SIZE_MIN <=
     step_size_float
       (state_of (send_prompt_end (VPrompt 0)
                    (Rejected (NetworkError "Too Many Requests" "429")) 0
                    (prompter4 [prompt_of 1 0] (VPrompt 0 :: replicate 7 VNull) 1))))%Q.
Proof.
  apply retryable_failure_restores_minimum. reflexivity.
Defined.

(** ** The retry ceiling *)

Lemma schedule_prompt_retries v random s :
  Forall (λ p, retries p ≤ RETRY_COUNT) (objs s) →
  Forall (λ p, retries p ≤ RETRY_COUNT) (objs (state_of (schedule_prompt v random s))).
Proof.
  intros H. unfold schedule_prompt. destruct v as [| |r]; try done.
  destruct (objs s !! r) as [p|] eqn:Hp; [|done].
  destruct (Z.ltb_spec (retries p) RETRY_COUNT) as [Hlt|]; [|done].
  destruct (find_closest_queue_index p random s); [|done].
  simpl. apply Forall_insert; [done|]. simpl. lia.
Qed.

Lemma send_prompt_end_retries v o random s :
  Forall (λ p, retries p ≤ RETRY_COUNT) (objs s) →
  Forall (λ p, retries p ≤ RETRY_COUNT) (objs (state_of (send_prompt_end v o random s))).
Proof.
  intros H. unfold send_prompt_end, send_prompt_settle.
  destruct o as [output|[m c|m]].
  - exact H.
  - destruct (should_retry m c).
    + pose proof (schedule_prompt_retries v random
                    (update_step_size STEP_NEGATIVE_AMOUNT s) H) as H'.
      revert H'. generalize (schedule_prompt v random (update_step_size STEP_NEGATIVE_AMOUNT s)).
      intros [s1|s1] H'; exact H'.
    + cbn [state_of]. unfold abort, resolve. cbn. by destruct (completion s).
  - cbn [state_of]. unfold abort, resolve. cbn. by destruct (completion s).
Qed.

Lemma step_retries s ev :
  loads_within_retries ev →
  Forall (λ p, retries p ≤ RETRY_COUNT) (objs s) →
  Forall (λ p, retries p ≤ RETRY_COUNT) (objs (step s ev)).
Proof.
  intros Hev H. destruct ev as [|response| |i o random| |]; simpl.
  - unfold_methods. split_cases.
  - destruct (loading s); [done|]. unfold load_return.
    destruct (done response); [done|].
    edestruct push_prompts_to_queue_frame as (q & c & l & ->). simpl.
    apply Forall_app. by split.
  - unfold_methods. split_cases.
  - destruct (sending s !! i) as [v|]; [|done].
    pose proof (send_prompt_end_retries v o random
                  (with_sending (delete i (sending s)) s) H) as H'.
    by destruct (send_prompt_end _ _ _ _).
  - unfold_methods. split_cases.
  - unfold_methods. split_cases.
Qed.

(** X11: when the store hands over prompts with at most [RETRY_COUNT]
    retries, no prompt ever has more than [RETRY_COUNT] retries. *)
Theorem retries_bounded model evs :
  Forall loads_within_retries evs →
  Forall (λ p, retries p ≤ RETRY_COUNT) (objs (run (start (constructor model)) evs)).
Proof.
  assert (H : ∀ evs s, Forall loads_within_retries evs →
                Forall (λ p, retries p ≤ RETRY_COUNT) (objs s) →
                Forall (λ p, retries p ≤ RETRY_COUNT) (objs (run s evs))).
  { clear. induction evs as [|ev evs IH]; intros s Hevs Hs; simpl; [done|].
    inversion Hevs; subst. apply IH; [done | by apply step_retries]. }
  intros Hevs. apply H; [done | constructor].
Qed.

Lemma retries_bounded_witness :
  Forall (λ p, retries p ≤ RETRY_COUNT)
    (objs (run (start (constructor model80))
             ([LoadTick; LoadReturn (page 0 20)] ++ successful_tick))).
Proof.
  apply retries_bounded.
  repeat constructor; vm_compute; discriminate.
Defined.

(** ** The promise of [start] *)

Lemma send_prompt_end_settled v o random s b :
  completion s = Some b →
  completion (state_of (send_prompt_end v o random s)) = Some b.
Proof. unfold_methods. split_cases; congruence. Qed.

Lemma step_settled s ev b :
  completion s = Some b → completion (step s ev) = Some b.
Proof.
  intros H. destruct ev as [|response| |i o random| |]; simpl.
  - unfold_methods. split_cases.
  - destruct (loading s); [done|]. by rewrite load_return_completion.
  - unfold_methods. split_cases.
  - destruct (sending s !! i) as [v|]; [|done].
    pose proof (send_prompt_end_settled v o random
                  (with_sending (delete i (sending s)) s) b H) as H'.
    by destruct (send_prompt_end _ _ _ _).
  - unfold_methods. split_cases.
  - unfold_methods. split_cases; congruence.
Qed.

(** X12: the promise of [start] settles once: the value it has settled with
    is the value it keeps, whatever happens afterwards. *)
Theorem completion_settles_once s evs b :
  completion s = Some b → completion (run s evs) = Some b.
Proof.
  revert s. induction evs as [|ev evs IH]; intros s H; simpl; [done|].
  apply IH. by apply step_settled.
Qed.

Lemma completion_settles_once_witness :
  let s := abort (loaded_then_sent 1) in
  completion (run s (successful_tick ++ [WaitTick])) = Some false.
Proof.
  intros s. apply (completion_settles_once s). reflexivity.
Defined.

(** ** After an abort *)

Lemma armed_once_clearInterval t : armed_once t → armed_once (clearInterval t).
Proof.
  unfold armed_once, clearInterval. destruct (stored t) eqn:E; simpl; [|by rewrite E].
  by intros ->.
Qed.

Lemma clearInterval_stored t : stored (clearInterval t) = false.
Proof. unfold clearInterval. by destruct (stored t) eqn:E. Qed.

Lemma resolve_frame b s :
  load_interval (resolve b s) = load_interval s ∧
  chat_interval (resolve b s) = chat_interval s ∧
  aborted (resolve b s) = aborted s ∧
  is_Some (completion (resolve b s)).
Proof. unfold resolve. destruct (completion s) eqn:E; simpl; rewrite ?E; eauto. Qed.

Lemma abort_timers_consistent s : timers_consistent s → timers_consistent (abort s).
Proof.
  intros (Hl & Hc & _). unfold timers_consistent, abort.
  match goal with |- context [resolve false ?x] =>
    destruct (resolve_frame false x) as (-> & -> & -> & Hco) end.
  cbn [load_interval chat_interval with_aborted with_wait_interval
       with_load_interval with_chat_interval].
  split; [by apply armed_once_clearInterval|].
  split; [by apply armed_once_clearInterval|].
  intros _. by rewrite !clearInterval_stored.
Qed.

Lemma with_chat_active_timers_consistent x s :
  timers_consistent s → timers_consistent (with_chat_active x s).
Proof. intros H. exact H. Qed.

Lemma update_step_size_timers_consistent v s :
  timers_consistent s → timers_consistent (update_step_size v s).
Proof. intros H. exact H. Qed.

Lemma log_timers_consistent r s : timers_consistent s → timers_consistent (log r s).
Proof. intros H. exact H. Qed.

Lemma send_prompt_end_timers_consistent v o random s :
  timers_consistent s → timers_consistent (state_of (send_prompt_end v o random s)).
Proof.
  intros H. unfold send_prompt_end, send_prompt_settle.
  destruct o as [output|[m c|m]].
  - exact H.
  - destruct (should_retry m c).
    + apply (update_step_size_timers_consistent STEP_NEGATIVE_AMOUNT) in H.
      destruct (schedule_prompt_frame v random (update_step_size STEP_NEGATIVE_AMOUNT s))
        as (_ & _ & Hco & Ha & Hli & Hci & _).
      revert Hco Ha Hli Hci.
      generalize (schedule_prompt v random (update_step_size STEP_NEGATIVE_AMOUNT s)).
      intros [s1|s1] Hco Ha Hli Hci; cbn [state_of] in *;
        [apply with_chat_active_timers_consistent|];
        unfold timers_consistent; rewrite Hco, Ha, Hli, Hci; exact H.
    + cbn [state_of].
      apply with_chat_active_timers_consistent, abort_timers_consistent,
        log_timers_consistent, H.
  - cbn [state_of].
    apply with_chat_active_timers_consistent, abort_timers_consistent,
      log_timers_consistent, H.
Qed.

Lemma step_timers_consistent s ev :
  timers_consistent s → timers_consistent (step s ev).
Proof.
  intros H. destruct ev as [|response| |i o random| |]; simpl.
  - destruct (fires _); [|done]. unfold load_tick. by destruct (_ <=? _).
  - destruct (loading s); [done|]. unfold load_return.
    destruct (done response).
    + destruct H as (Hl & Hc & Ha). unfold timers_consistent. simpl.
      split; [by apply armed_once_clearInterval|]. split; [done|].
      intros Hab. destruct (Ha Hab) as (? & ? & ?).
      by rewrite clearInterval_stored.
    + by edestruct push_prompts_to_queue_frame as (q & c & l & ->).
  - destruct (fires _); [|done]. unfold chat_tick.
    destruct (0 <? queue_count s); [|done]. by destruct (_ && _).
  - destruct (sending s !! i) as [v|]; [|done].
    pose proof (send_prompt_end_timers_consistent v o random
                  (with_sending (delete i (sending s)) s) H) as H'.
    by destruct (send_prompt_end _ _ _ _).
  - by destruct (resuming s).
  - destruct (fires _); [|done]. unfold wait_tick. destruct (_ =? _); [|done].
    destruct H as (Hl & Hc & Ha). unfold timers_consistent.
    match goal with |- context [resolve true ?x] =>
      destruct (resolve_frame true x) as (-> & -> & -> & Hco) end.
    simpl. split; [done|]. split; [done|].
    intros Hab. by destruct (Ha Hab) as (? & ? & ?).
Qed.

Lemma run_timers_consistent evs : ∀ s,
  timers_consistent s → timers_consistent (run s evs).
Proof.
  induction evs as [|ev evs IH]; intros s H; simpl; [done|].
  by apply IH, step_timers_consistent.
Qed.

Lemma step_aborted s ev : aborted s = true → aborted (step s ev) = true.
Proof.
  intros H. destruct ev as [|response| |i o random| |]; simpl.
  - unfold_methods. split_cases.
  - destruct (loading s); [done|]. unfold load_return.
    destruct (done response); [done|].
    by edestruct push_prompts_to_queue_frame as (q & c & l & ->).
  - unfold_methods. split_cases.
  - destruct (sending s !! i) as [v|]; [|done].
    assert (H' : aborted (state_of (send_prompt_end v o random
                                      (with_sending (delete i (sending s)) s))) = true).
    { unfold_methods. split_cases. }
    by destruct (send_prompt_end _ _ _ _).
  - unfold_methods. split_cases.
  - unfold_methods. split_cases.
Qed.

(** X13: once a run has aborted, the promise is settled, and in every later
    state the callbacks of the loader and of the dispatcher do nothing: no
    load is asked of the store and no send is started. *)
Theorem aborted_run_is_silent model evs later :
  aborted (run (start (constructor model)) evs) = true →
  let s := run (start (constructor model)) (evs ++ later) in
  aborted s = true ∧ is_Some (completion s) ∧
  step s LoadTick = s ∧ step s ChatTick = s.
Proof.
  intros Hab s.
  assert (Hs : s = run (run (start (constructor model)) evs) later)
    by (subst s; unfold run; by rewrite fold_left_app).
  assert (Hab' : aborted s = true).
  { rewrite Hs. clear Hs s. revert Hab.
    generalize (run (start (constructor model)) evs).
    induction later as [|ev later IH]; intros s0 H; simpl; [done|].
    by apply IH, step_aborted. }
  destruct (run_timers_consistent (evs ++ later) (start (constructor model)))
    as (Hl & Hc & Ha); [by repeat split|].
  fold s in Hl, Hc, Ha. destruct (Ha Hab') as (Hsl & Hsc & Hco).
  unfold armed_once in Hl, Hc. rewrite Hsl in Hl. rewrite Hsc in Hc.
  split; [done|]. split; [done|]. simpl. unfold fires. by rewrite Hl, Hc.
Qed.

Lemma aborted_run_is_silent_witness :
  let evs := [LoadTick; LoadReturn (page 0 20); ChatTick;
              ChatReturn 0 (Rejected (OtherError "connection reset")) 0] in
  let s := run (start (constructor model80)) (evs ++ [ChatResume; LoadTick]) in
  step s ChatTick = s.
Proof.
  intros evs s.
  assert (H : aborted (run (start (constructor model80)) evs) = true)
    by (vm_compute; reflexivity).
  destruct (aborted_run_is_silent model80 evs [ChatResume; LoadTick] H)
    as (_ & _ & _ & Hc).
  exact Hc.
Defined.

(** ** Small budgets *)

(** X14: with [rpm] below 4 the load limit and the load threshold are 0, the
    backpressure test holds from the start, and nothing ever happens: no
    load is asked of the store, no send is started and the promise of
    [start] never settles. *)
Theorem small_rpm_never_loads model evs :
  (rpm model < 4)%nat →
  run (start (constructor model)) evs = start (constructor model).
Proof.
  intros Hrpm.
  assert (Hstep : ∀ ev, step (start (constructor model)) ev = start (constructor model)).
  { intros ev.
    assert (Ht : load_threshold (start (constructor model)) = 0).
    { simpl. destruct (rpm model) as [|[|[|[|n]]]]; (reflexivity || lia). }
    destruct ev as [|response| |i o random| |]; simpl; try done.
    unfold load_tick. rewrite Ht. done. }
  induction evs as [|ev evs IH]; simpl; [done|].
  by rewrite Hstep.
Qed.

Lemma small_rpm_never_loads_witness :
  completion (run (start (constructor (mkModel "model" 3 4096)))
                [LoadTick; LoadReturn (page 0 1); ChatTick; WaitTick]) = None.
Proof.
  rewrite (small_rpm_never_loads (mkModel "model" 3 4096)); [reflexivity|].
  simpl. lia.
Defined.

(** ** The size of the array *)

Lemma push_prompts_loop_length n : ∀ prompts qi pi s,
  (qi + n ≤ length (queue s))%nat →
  length (queue (push_prompts_loop n prompts qi pi s)) = length (queue s).
Proof.
  induction n as [|n IH]; intros prompts qi pi s H; simpl; [done|].
  destruct (is_null _); [|apply IH; lia].
  assert (Hl : length (aset (queue s) qi (element prompts pi)) = length (queue s))
    by (rewrite length_aset; lia).
  destruct (_ =? _); simpl; [done|].
  rewrite IH; simpl; [done | lia].
Qed.

Lemma schedule_prompt_length v random s :
  (queue_size s ≤ length (queue s) ≤ S (queue_size s))%nat →
  let s' := state_of (schedule_prompt v random s) in
  (queue_size s' ≤ length (queue s') ≤ S (queue_size s'))%nat.
Proof.
  intros H. unfold schedule_prompt. destruct v as [| |r]; try done.
  destruct (objs s !! r) as [p|]; [|done].
  destruct (retries p <? RETRY_COUNT); [|done].
  destruct (find_closest_queue_index p random s) as [i|] eqn:Hi; [|done].
  apply closest_from_Some in Hi as [_ Hi].
  specialize (Hi (exact_index_le p random s)).
  simpl. rewrite length_aset. lia.
Qed.

Lemma send_prompt_end_length v o random s :
  (queue_size s ≤ length (queue s) ≤ S (queue_size s))%nat →
  let s' := state_of (send_prompt_end v o random s) in
  (queue_size s' ≤ length (queue s') ≤ S (queue_size s'))%nat.
Proof.
  intros H. unfold send_prompt_end, send_prompt_settle.
  destruct o as [output|[m c|m]].
  - exact H.
  - destruct (should_retry m c).
    + pose proof (schedule_prompt_length v random
                    (update_step_size STEP_NEGATIVE_AMOUNT s) H) as H'.
      revert H'. generalize (schedule_prompt v random (update_step_size STEP_NEGATIVE_AMOUNT s)).
      intros [s1|s1] H'; exact H'.
    + cbn [state_of]. unfold abort, resolve. cbn. by destruct (completion s).
  - cbn [state_of]. unfold abort, resolve. cbn. by destruct (completion s).
Qed.

Lemma step_length s ev :
  (queue_size s ≤ length (queue s) ≤ S (queue_size s))%nat →
  (queue_size (step s ev) ≤ length (queue (step s ev)) ≤ S (queue_size (step s ev)))%nat.
Proof.
  intros H.
  assert (Hshift : ∀ s0, (queue_size s0 ≤ length (queue s0) ≤ S (queue_size s0))%nat →
    (queue_size (shift_queue s0) ≤ length (queue (shift_queue s0))
       ≤ S (queue_size (shift_queue s0)))%nat).
  { intros s0 H0. rewrite shift_queue_length by lia. simpl. lia. }
  destruct ev as [|response| |i o random| |]; simpl.
  - unfold_methods. split_cases.
  - destruct (loading s); [done|]. unfold load_return.
    destruct (done response); [done|]. unfold push_prompts_to_queue.
    rewrite push_prompts_loop_queue_size, push_prompts_loop_length; simpl; lia.
  - destruct (fires _); [|done]. unfold chat_tick.
    destruct (0 <? queue_count s); [|done].
    destruct (_ && _); [done|]. by apply Hshift.
  - destruct (sending s !! i) as [v|]; [|done].
    pose proof (send_prompt_end_length v o random
                  (with_sending (delete i (sending s)) s) H) as H'.
    by destruct (send_prompt_end _ _ _ _).
  - destruct (resuming s); [done|]. by apply Hshift.
  - unfold_methods. split_cases.
Qed.

(** X15: on every run the array [queue] has [queue_size] elements or one
    more: it covers the timeline and never grows beyond index
    [queue_size]. *)
Theorem queue_length_bounds model evs :
  let s := run (start (constructor model)) evs in
  queue_size s = (rpm model * 2)%nat ∧
  (queue_size s ≤ length (queue s) ≤ S (queue_size s))%nat.
Proof.
  intros s. split.
  - subst s. by destruct (run_constants evs (start (constructor model))) as (_ & -> & _).
  - subst s.
    assert (H : ∀ evs s0, (queue_size s0 ≤ length (queue s0) ≤ S (queue_size s0))%nat →
      (queue_size (run s0 evs) ≤ length (queue (run s0 evs)) ≤ S (queue_size (run s0 evs)))%nat).
    { clear. induction evs as [|ev evs IH]; intros s0 H0; simpl; [done|].
      by apply IH, step_length. }
    apply H. simpl. rewrite length_replicate. lia.
Qed.

(** X16: on every run with a positive [rpm] in which the store keeps its
    contract, every element of [queue] is [null] or a prompt object:
    [undefined] never enters the array. *)
Theorem queue_elements_typed model evs :
  (0 < rpm model)%nat → Forall store_contract evs →
  let s := run (start (constructor model)) evs in
  Forall (valid_slot (length (objs s))) (queue s) ∧
  ∀ j, (j < queue_size s)%nat → aget (queue s) j ≠ VUndefined.
Proof.
  intros Hrpm Hc s.
  destruct (run_well_formed evs (start (constructor model))) as [[Hsize Hlen Hq Hs] _];
    [by apply start_well_formed | done |].
  fold s in Hsize, Hlen, Hq, Hs. split; [done|].
  intros j Hj Hu.
  assert (Hv : valid_slot (length (objs s)) (aget (queue s) j))
    by (apply Forall_aget; [lia | done]).
  rewrite Hu in Hv. by destruct Hv as [|(r & ? & _)].
Qed.

Lemma queue_elements_typed_witness :
  let s := run (start (constructor model80))
             ([LoadTick; LoadReturn (page 0 20)] ++ successful_tick) in
  aget (queue s) 0 ≠ VUndefined.
Proof.
  intros s.
  assert (Hrpm : (0 < rpm model80)%nat) by (simpl; lia).
  assert (Hc : Forall store_contract ([LoadTick; LoadReturn (page 0 20)] ++ successful_tick)).
  { repeat constructor. simpl. discriminate. }
  destruct (queue_elements_typed model80 _ Hrpm Hc) as [_ H].
  apply H. vm_compute. lia.
Defined.

(** ** Sends in flight *)

Lemma send_prompt_end_chat_active v o random s :
  match send_prompt_end v o random s with
  | Returns s' => chat_active s' = chat_active s - 1
  | Throws s' => chat_active s' = chat_active s
  end.
Proof.
  unfold send_prompt_end, send_prompt_settle.
  destruct o as [output|[m c|m]].
  - reflexivity.
  - destruct (should_retry m c).
    + destruct (schedule_prompt_frame v random (update_step_size STEP_NEGATIVE_AMOUNT s))
        as (_ & H & _).
      revert H. generalize (schedule_prompt v random (update_step_size STEP_NEGATIVE_AMOUNT s)).
      intros [s1|s1] H; cbn [state_of] in H; cbn; by rewrite H.
    + cbn. by rewrite chat_active_abort.
  - cbn. by rewrite chat_active_abort.
Qed.

Lemma step_in_flight s ev :
  chat_active s - Z.of_nat (length (sending s))
  ≤ chat_active (step s ev) - Z.of_nat (length (sending (step s ev))).
Proof.
  destruct ev as [|response| |i o random| |]; simpl.
  - unfold_methods. split_cases.
  - destruct (loading s); [done|].
    by destruct (load_return_sending response (with_loading n s)) as [-> ->].
  - destruct (fires _); [|done]. unfold chat_tick.
    destruct (0 <? queue_count s); [|done].
    destruct (_ && _); [|done]. simpl. rewrite length_app. simpl. lia.
  - destruct (sending s !! i) as [v|] eqn:Hi; [|done].
    pose proof (send_prompt_end_chat_active v o random
                  (with_sending (delete i (sending s)) s)) as Hc.
    destruct (send_prompt_end_frame v o random
                (with_sending (delete i (sending s)) s)) as (_ & _ & _ & _ & Hs & _).
    assert (Hd : length (delete i (sending s)) = (length (sending s) - 1)%nat)
      by (by apply length_delete).
    apply lookup_lt_Some in Hi.
    destruct (send_prompt_end _ _ _ _); simpl in *; rewrite Hc, Hs, Hd; lia.
  - by destruct (resuming s).
  - destruct (fires _); [|done]. unfold wait_tick. destruct (_ =? _); [|done].
    unfold resolve. simpl. by destruct (completion s).
Qed.

(** X17: [chat_active] never falls behind the number of sends that await
    the runner: the difference between the two never decreases.  Hence once
    [chat_active] exceeds the number of pending sends, which happens when
    [send_prompt] throws before its last statement, the promise of [start]
    can no longer settle with [true]. *)
Theorem chat_active_never_recovers s evs :
  chat_active s - Z.of_nat (length (sending s))
  ≤ chat_active (run s evs) - Z.of_nat (length (sending (run s evs))) ∧
  (Z.of_nat (length (sending s)) < chat_active s → completion s ≠ Some true →
   completion (run s evs) ≠ Some true).
Proof.
  assert (Hmono : ∀ evs s,
    chat_active s - Z.of_nat (length (sending s))
    ≤ chat_active (run s evs) - Z.of_nat (length (sending (run s evs)))).
  { clear. induction evs as [|ev evs IH]; intros s; simpl; [lia|].
    etrans; [apply (step_in_flight s ev) | apply IH]. }
  split; [apply Hmono|].
  revert s. induction evs as [|ev evs IH]; intros s Hgap Hpending; simpl; [done|].
  apply IH.
  - pose proof (step_in_flight s ev). lia.
  - intros Hdone. destruct (step_settles_true s ev Hpending Hdone) as [_ H0]. lia.
Qed.

Lemma chat_active_never_recovers_witness :
  let s := with_chat_active 1 (loaded_then_sent 1) in
  completion (run s (successful_tick ++ [WaitTick])) ≠ Some true.
Proof.
  intros s.
  destruct (chat_active_never_recovers s (successful_tick ++ [WaitTick])) as [_ H].
  apply H; [vm_compute; reflexivity | vm_compute; discriminate].
Defined.

(** X18: when [send_prompt] was called on a value that is not a prompt
    object and the runner fails with an error that is retried,
    [schedule_prompt] throws: the step has been lowered, [chat_active] is
    not decremented, and the chat callback that awaited the send does not
    resume. *)
Theorem send_prompt_end_throws v m c random s i :
  (∀ r, v ≠ VPrompt r) → should_retry m c = true →
  send_prompt_end v (Rejected (NetworkError m c)) random s
  = Throws (update_step_size STEP_NEGATIVE_AMOUNT s) ∧
  (sending s !! i = Some v →
   let s' := step s (ChatReturn i (Rejected (NetworkError m c)) random) in
   chat_active s' = chat_active s ∧ resuming s' = resuming s ∧
   sending s' = delete i (sending s)).
Proof.
  intros Hv Hr.
  assert (H : ∀ s0, send_prompt_end v (Rejected (NetworkError m c)) random s0
                    = Throws (update_step_size STEP_NEGATIVE_AMOUNT s0)).
  { intros s0. unfold send_prompt_end, send_prompt_settle. rewrite Hr.
    unfold schedule_prompt. destruct v as [| |r]; [done | done | by destruct (Hv r)]. }
  split; [apply H|]. intros Hi. simpl. rewrite Hi, H. done.
Qed.

Lemma send_prompt_end_throws_witness :
  let s := step (push_prompts_to_queue [] (start (constructor model4))) ChatTick in
  chat_active s = 1 ∧
  chat_active (step s (ChatReturn 0 (Rejected (NetworkError "Too Many Requests" "429")) 0)) = 1.
Proof.
  intros s. split; [reflexivity|].
  assert (Hv : ∀ r, VUndefined ≠ VPrompt r) by discriminate.
  assert (Hr : should_retry "Too Many Requests" "429" = true) by reflexivity.
  destruct (send_prompt_end_throws VUndefined "Too Many Requests" "429" 0 s 0%nat Hv Hr)
    as [_ H].
  destruct (H eq_refl) as (Hc & _). rewrite Hc. reflexivity.
Defined.

(** ** Ticks that overlap a send *)

(** X19: while a send is awaited its prompt stays in slot 0, so every chat
    tick that fires in the meantime sends the same prompt again: after [k]
    ticks the prompt has been handed to the runner [k] times and the
    timeline has not moved. *)
Theorem chat_ticks_resend k s v :
  step_index s = 0 → 0 < queue_count s →
  aget (queue s) 0 = v → is_null v = false →
  sending (chat_ticks k s) = sending s ++ replicate k v ∧
  chat_active (chat_ticks k s) = chat_active s + Z.of_nat k ∧
  queue (chat_ticks k s) = queue s.
Proof.
  intros Hi Hc Hv Hn.
  assert (H : sending (chat_ticks k s) = sending s ++ replicate k v ∧
              chat_active (chat_ticks k s) = chat_active s + Z.of_nat k ∧
              queue (chat_ticks k s) = queue s ∧
              queue_count (chat_ticks k s) = queue_count s ∧
              step_index (chat_ticks k s) = step_index s).
  { induction k as [|k (Hs & Ha & Hq & Hqc & Hsi)].
    - simpl. rewrite app_nil_r. repeat split; lia.
    - change (chat_ticks (S k) s) with (chat_tick (chat_ticks k s)).
      unfold chat_tick. rewrite Hqc, Hsi, Hi, Hq, Hv, Hn.
      destruct (Z.ltb_spec 0 (queue_count s)); [|lia]. simpl.
      rewrite Hs, Ha, <- app_assoc, <- replicate_cons_app.
      repeat split; (done || lia). }
  by destruct H as (? & ? & ? & _).
Qed.

Lemma chat_ticks_resend_witness :
  sending (chat_ticks 3 (loaded_then_sent 1)) = [VPrompt 1; VPrompt 1; VPrompt 1].
Proof.
  assert (Hi : step_index (loaded_then_sent 1) = 0) by reflexivity.
  assert (Hc : 0 < queue_count (loaded_then_sent 1)) by reflexivity.
  assert (Hv : aget (queue (loaded_then_sent 1)) 0 = VPrompt 1) by reflexivity.
  assert (Hn : is_null (VPrompt 1) = false) by reflexivity.
  destruct (chat_ticks_resend 3 (loaded_then_sent 1) (VPrompt 1) Hi Hc Hv Hn) as (H & _).
  rewrite H. reflexivity.
Defined.

(** ** The first retry *)

Lemma jitter_below_one random :
  (0 <= random)%Q → (random < 1)%Q → (0 < jitter random)%Q ∧ (jitter random < 1)%Q.
Proof. unfold jitter. intros H0 H1. split; lra. Qed.

(** On exact numbers a prompt that has not been retried yet gets delay 0
    for every jitter below 1: the target of its first retry is slot 0. *)
Theorem first_retry_targets_slot_zero p random s :
  retries p = 0 → (0 <= random)%Q → (random < 1)%Q →
  retry_delay (retries p) random = 0 ∧ exact_index p random s = 0%nat.
Proof.
  intros Hr H0 H1.
  assert (Hd : retry_delay (retries p) random = 0).
  { rewrite Hr. unfold retry_delay, pow_mul_floor.
    destruct (jitter_below_one random H0 H1) as [Hpos Hlt].
    rewrite <- (Qred_correct (jitter random)) in Hpos, Hlt.
    destruct (Qred (jitter random)) as [n d].
    unfold Qlt in Hpos, Hlt. simpl in Hpos, Hlt.
    change (Qden (Qred RETRY_MULTIPLIER)) with 20%positive.
    change (Qnum (Qred RETRY_MULTIPLIER)) with 37.
    change (0 + RETRY_MIN) with 1. cbn [Qnum Qden].
    destruct (Z.to_nat _) as [|fuel]; [done|]. cbn [search_floor].
    change (0 + 1) with 1.
    destruct (Z.leb_spec ((1 * Z.pos d) ^ 20) (1 ^ 37 * n ^ 20)) as [Hle|]; [|done].
    exfalso. rewrite Z.pow_1_l in Hle by lia.
    assert (n ^ 20 < Z.pos d ^ 20) by (apply Z.pow_lt_mono_l; lia).
    rewrite !Z.mul_1_l in Hle. lia. }
  split; [done|]. unfold exact_index. rewrite Hd. done.
Qed.

Lemma first_retry_targets_slot_zero_witness :
  exact_index (prompt_of 1 0) (9 # 10)
    (prompter4 [prompt_of 1 0] (VPrompt 0 :: replicate 7 VNull) 1) = 0%nat.
Proof.
  apply first_retry_targets_slot_zero; [reflexivity | discriminate | reflexivity].
Defined.

(** ** The parts of the claims on the counter and on the backoff that hold *)

(** X20: [push_prompts_to_queue] keeps [queue_count] equal to the number of
    occupied slots of the timeline when it was so before. *)
Theorem push_prompts_to_queue_exact prompts s :
  queue_count s = occupied s →
  queue_count (push_prompts_to_queue prompts s)
  = occupied (push_prompts_to_queue prompts s).
Proof. apply push_prompts_to_queue_counter. Qed.

Lemma push_prompts_to_queue_exact_witness :
  let s := prompter4 (eight_prompts 0) only_front_free 7 in
  queue_count (push_prompts_to_queue [0%nat] s) = occupied (push_prompts_to_queue [0%nat] s).
Proof.
  intros s. apply (push_prompts_to_queue_exact [0%nat] s). reflexivity.
Defined.

(** X21: with the jitter at 1.0 and between 0 and 9 retries, the target
    index does not decrease when the number of retries grows, and it never
    exceeds [queue_size]. *)
Theorem exact_index_monotone_bounded p1 p2 s :
  0 ≤ retries p1 → retries p1 ≤ retries p2 → retries p2 ≤ 9 →
  (exact_index p1 1 s ≤ exact_index p2 1 s ≤ queue_size s)%nat.
Proof.
  intros H0 H1 H2. split; [by apply exact_index_monotone | apply exact_index_le].
Qed.

Lemma exact_index_monotone_bounded_witness :
  let s := prompter4 [] (replicate 8 VNull) 0 in
  (exact_index (prompt_of 1 0) 1 s ≤ exact_index (prompt_of 2 1) 1 s ≤ queue_size s)%nat.
Proof.
  intros s. apply exact_index_monotone_bounded; simpl; lia.
Defined.

(** * Properties of the prompt template *)

Lemma string_app_assoc (a b c : string) : (a +:+ b) +:+ c = a +:+ b +:+ c.
Proof. induction a as [|x a IH]; simpl; [done | by rewrite IH]. Qed.

Lemma string_app_nil_r (a : string) : a +:+ EmptyString = a.
Proof. induction a as [|x a IH]; simpl; [done | by rewrite IH]. Qed.

Lemma length_spaces n : String.length (spaces n) = n.
Proof. induction n as [|n IH]; simpl; [done | by rewrite IH]. Qed.

Lemma spaces_add n m : spaces (n + m) = spaces n +:+ spaces m.
Proof. induction n as [|n IH]; simpl; [done | by rewrite IH]. Qed.

(** X22: [indent] yields two spaces for each level of a depth that is not
    negative and nothing for a negative depth; the indentations of two
    depths that are not negative add up. *)
Theorem indent_spec a b :
  String.length (indent a) = Z.to_nat (a * 2) ∧
  (0 ≤ a → 0 ≤ b → indent (a + b) = indent a +:+ indent b).
Proof.
  split.
  - unfold indent. destruct (Z.ltb_spec a 0); [simpl; lia | apply length_spaces].
  - intros Ha Hb. unfold indent.
    destruct (Z.ltb_spec a 0); [lia|]. destruct (Z.ltb_spec b 0); [lia|].
    destruct (Z.ltb_spec (a + b) 0); [lia|].
    rewrite <- spaces_add. f_equal. lia.
Qed.

Lemma indent_spec_witness : indent (1 + 2) = indent 1 +:+ indent 2.
Proof. apply (indent_spec 1 2); lia. Defined.

Section TemplateProperties.
Context {number : Type} `{JSNumber number}.

Lemma fold_left_attribute (kvs : list (string * Primitive number)) : ∀ output,
  fold_left (fun output kv => output +:+ attribute kv) kvs output
  = output +:+ foldr String.append EmptyString (map attribute kvs).
Proof.
  induction kvs as [|kv kvs IH]; intros output; simpl.
  - by rewrite string_app_nil_r.
  - by rewrite IH, string_app_assoc.
Qed.

(** X23: [XMLParams] yields nothing for missing params and for the empty
    object; otherwise it yields one space followed by the attributes
    [key="value"] in the order of the keys, with nothing between one
    attribute and the next. *)
Theorem XMLParams_spec (kv : string * Primitive number) kvs :
  XMLParams (number := number) None = EmptyString ∧
  XMLParams (number := number) (Some []) = EmptyString ∧
  XMLParams (Some (kv :: kvs))
  = " " +:+ attribute kv +:+ foldr String.append EmptyString (map attribute kvs).
Proof.
  split; [done|]. split; [done|].
  unfold XMLParams. cbn [length Nat.eqb]. by rewrite fold_left_attribute.
Qed.

(** X24: [tag] keeps the params only when the content is truthy: a tag whose
    content is the empty string, a number that is 0 or NaN, or [false] is
    built without its params and rendered without attributes, whatever
    params were given. *)
Theorem tag_drops_params_of_falsy_content tag_name type params content depth :
  truthy content = false →
  tag tag_name type params content = mkTag type tag_name None content ∧
  XMLTag (tag tag_name type params content) depth
  = indent depth +:+ "<" +:+ tag_name +:+ ">" +:+ nl +:+
    XMLContent content (depth + 1) +:+ nl +:+ indent depth +:+ "</" +:+ tag_name +:+ ">".
Proof.
  intros Hf. unfold tag. rewrite Hf. split; reflexivity.
Qed.

Lemma join_cons sep x y (l : list string) :
  join sep (x :: y :: l) = x +:+ sep +:+ join sep (y :: l).
Proof. reflexivity. Qed.

Lemma join_app sep (l1 l2 : list string) :
  l1 ≠ [] → l2 ≠ [] → join sep (l1 ++ l2) = join sep l1 +:+ sep +:+ join sep l2.
Proof.
  intros H1 H2. induction l1 as [|x l1 IH]; [done|].
  destruct l1 as [|y l1].
  - simpl. by destruct l2.
  - change ((x :: y :: l1) ++ l2) with (x :: y :: (l1 ++ l2)).
    rewrite !join_cons. change (y :: l1 ++ l2) with ((y :: l1) ++ l2).
    rewrite IH by done. by rewrite !string_app_assoc.
Qed.

(** X25: an array is rendered element by element at the depth of the array
    itself: the empty array yields nothing, an array of one element yields
    the rendering of that element, and the rendering of two arrays put end
    to end is the two renderings separated by an empty line. *)
Theorem XMLContent_array (c : TagContent number) l1 l2 depth :
  XMLContent (number := number) (CArray []) depth = EmptyString ∧
  XMLContent (CArray [c]) depth = XMLContent c depth ∧
  (l1 ≠ [] → l2 ≠ [] →
   XMLContent (CArray (l1 ++ l2)) depth
   = XMLContent (CArray l1) depth +:+ (nl +:+ nl) +:+ XMLContent (CArray l2) depth).
Proof.
  split; [done|]. split; [done|]. intros H1 H2.
  cbn [XMLContent]. rewrite map_app. apply join_app.
  - by destruct l1.
  - by destruct l2.
Qed.

End TemplateProperties.

Lemma tag_drops_params_of_falsy_content_witness :
  XMLTag (tag_number "input" 0 [("unit"%string, PString "years")]) 0
  = "<input>" +:+ nl +:+ "  0" +:+ nl +:+ "</input>".
Proof.
  assert (Hf : truthy (number := Z) (CPrimitive (PNumber 0)) = false) by reflexivity.
  destruct (tag_drops_params_of_falsy_content "input" TNumber
              [("unit"%string, PString "years")] (CPrimitive (PNumber 0)) 0 Hf)
    as [_ Hx].
  exact Hx.
Defined.

Lemma XMLContent_array_witness :
  XMLContent (CArray ([CTag (tag_string (number := Z) "a" "x" [])]
                      ++ [CTag (tag_string "b" "y" [])])) 0
  = XMLContent (CArray [CTag (tag_string (number := Z) "a" "x" [])]) 0
    +:+ (nl +:+ nl) +:+ XMLContent (CArray [CTag (tag_string (number := Z) "b" "y" [])]) 0.
Proof.
  destruct (XMLContent_array (CTag (tag_string (number := Z) "a" "x" []))
              [CTag (tag_string (number := Z) "a" "x" [])]
              [CTag (tag_string (number := Z) "b" "y" [])] 0) as (_ & _ & Happ).
  apply Happ; discriminate.
Defined.

(** ** Indentation *)

Lemma shift_lines_app s1 : ∀ at_start s2,
  shift_lines at_start (s1 +:+ s2)
  = shift_lines at_start s1 +:+ shift_lines (ends_line at_start s1) s2.
Proof.
  induction s1 as [|c s1 IH]; intros at_start s2; simpl; [done|].
  destruct (Ascii.eqb c newline); [by rewrite IH|].
  destruct at_start; by rewrite IH.
Qed.

Lemma shift_lines_one_line s :
  one_line s = true →
  shift_lines false s = s ∧ ∀ b, ends_line b s = (if String.eqb s EmptyString then b else false).
Proof.
  induction s as [|c s IH]; simpl; [done|].
  intros [Hc Hs]%andb_true_iff. apply negb_true_iff in Hc. rewrite Hc.
  destruct (IH Hs) as [IH1 IH2]. split; [by rewrite IH1|].
  intros _. rewrite IH2. by destruct (String.eqb s EmptyString).
Qed.

Lemma shift_lines_first s :
  one_line s = true → s ≠ EmptyString →
  shift_lines true s = spaces 2 +:+ s ∧ ∀ b, ends_line b s = false.
Proof.
  destruct s as [|c s]; [done|]. simpl.
  intros [Hc Hs]%andb_true_iff _. apply negb_true_iff in Hc. rewrite Hc.
  destruct (shift_lines_one_line s Hs) as [H1 H2]. split; [by rewrite H1|].
  intros _. rewrite H2. by destruct (String.eqb s EmptyString).
Qed.

Lemma one_line_app s1 s2 : one_line (s1 +:+ s2) = one_line s1 && one_line s2.
Proof. induction s1 as [|c s1 IH]; simpl; [done | by rewrite IH, andb_assoc]. Qed.

Lemma one_line_spaces n : one_line (spaces n) = true.
Proof. induction n as [|n IH]; simpl; done. Qed.

Lemma one_line_indent depth : one_line (indent depth) = true.
Proof. unfold indent. destruct (depth <? 0); [done | apply one_line_spaces]. Qed.

Lemma indent_succ depth : 0 ≤ depth → indent (depth + 1) = spaces 2 +:+ indent depth.
Proof.
  intros H. unfold indent.
  destruct (Z.ltb_spec depth 0); [lia|]. destruct (Z.ltb_spec (depth + 1) 0); [lia|].
  replace (Z.to_nat ((depth + 1) * 2)) with (2 + Z.to_nat (depth * 2))%nat by lia.
  apply spaces_add.
Qed.

(** A line that begins with the indentation of [depth] and goes on with a
    text on one line that is not empty. *)
Lemma shift_lines_indented depth s rest :
  0 ≤ depth → one_line s = true → s ≠ EmptyString →
  shift_lines true (indent depth +:+ s +:+ rest)
  = indent (depth + 1) +:+ s +:+ shift_lines false rest.
Proof.
  intros Hd Hs Hne. rewrite <- string_app_assoc, shift_lines_app.
  destruct (shift_lines_first (indent depth +:+ s)) as [-> ->].
  - by rewrite one_line_app, one_line_indent.
  - destruct (indent depth); [done | discriminate].
  - by rewrite indent_succ, !string_app_assoc.
Qed.

Lemma shift_lines_plain_piece s rest :
  one_line s = true →
  shift_lines false (s +:+ rest) = s +:+ shift_lines false rest.
Proof.
  intros Hs. rewrite shift_lines_app.
  destruct (shift_lines_one_line s Hs) as [-> ->].
  by destruct (String.eqb s EmptyString).
Qed.

Lemma shift_lines_nl b rest : shift_lines b (nl +:+ rest) = nl +:+ shift_lines true rest.
Proof. reflexivity. Qed.

Section TemplateIndentation.
Context {number : Type} `{JSNumber number}.

Section Induction.
Variable P : TagContent number → Prop.
Variable Q : BaseTag number → Prop.
Hypothesis Hprimitive : ∀ p, P (CPrimitive p).
Hypothesis Htag : ∀ t, Q t → P (CTag t).
Hypothesis Harray : ∀ l, Forall P l → P (CArray l).
Hypothesis Hmk : ∀ type tag_name params content,
  P content → Q (mkTag type tag_name params content).

(** Induction on a content, through the tags and the arrays. *)
Fixpoint TagContent_induction (content : TagContent number) : P content :=
  match content with
  | CPrimitive p => Hprimitive p
  | CTag t => Htag t (BaseTag_induction t)
  | CArray l =>
      Harray l
        ((fix all (l : list (TagContent number)) : Forall P l :=
            match l with
            | [] => @List.Forall_nil _ P
            | c :: l' => @List.Forall_cons _ P c l' (TagContent_induction c) (all l')
            end) l)
  end
with BaseTag_induction (t : BaseTag number) : Q t :=
  match t with
  | mkTag type tag_name params content =>
      Hmk type tag_name params content (TagContent_induction content)
  end.
End Induction.

Lemma shift_lines_join (l : list (TagContent number)) depth :
  Forall (λ c, shift_lines true (XMLContent c depth) = XMLContent c (depth + 1)) l →
  shift_lines true (join (nl +:+ nl) (map (λ v, XMLContent v depth) l))
  = join (nl +:+ nl) (map (λ v, XMLContent v (depth + 1)) l).
Proof.
  induction 1 as [|c l Hc Hl IH]; [done|].
  destruct l as [|c' l]; [done|].
  cbn [map] in *. rewrite !join_cons, shift_lines_app, Hc.
  f_equal. change ((nl +:+ nl) +:+ ?x) with (nl +:+ nl +:+ x).
  rewrite !shift_lines_nl. by rewrite IH.
Qed.

(** X26: for a content whose primitives, tag names and params are on one
    line, and whose primitives are not empty, the rendering at a depth that
    is not negative plus one is the rendering at that depth with two spaces
    put in front of every line that is not empty. *)
Theorem XMLContent_depth_shift (content : TagContent number) depth :
  plain content = true → 0 ≤ depth →
  XMLContent content (depth + 1) = shift_lines true (XMLContent content depth).
Proof.
  revert depth.
  apply (TagContent_induction
           (λ c, ∀ depth, plain c = true → 0 ≤ depth →
                 XMLContent c (depth + 1) = shift_lines true (XMLContent c depth))
           (λ t, ∀ depth, plain (CTag t) = true → 0 ≤ depth →
                 XMLTag t (depth + 1) = shift_lines true (XMLTag t depth))).
  - intros p depth Hp Hd. cbn [plain] in Hp.
    apply andb_true_iff in Hp as [Hl Hne]. apply negb_true_iff in Hne.
    cbn [XMLContent].
    rewrite <- (string_app_nil_r (primitive_to_string p)) at 2.
    rewrite shift_lines_indented; [by rewrite string_app_nil_r | done | done |].
    intros E. by rewrite E in Hne.
  - intros t IH depth Hp Hd. by apply IH.
  - intros l IH depth Hp Hd. cbn [XMLContent]. symmetry. apply shift_lines_join.
    cbn [plain] in Hp. rewrite forallb_forall in Hp.
    apply Forall_forall. intros c Hc. symmetry.
    rewrite Forall_forall in IH. apply IH; [done | | done].
    apply Hp. by apply list_elem_of_In.
  - intros type tag_name params body IH depth Hp Hd. cbn [plain] in Hp.
    apply andb_true_iff in Hp as [Hp Hc]. apply andb_true_iff in Hp as [Hn Hps].
    cbn [XMLTag].
    rewrite shift_lines_indented by done.
    rewrite !shift_lines_plain_piece by done.
    rewrite shift_lines_nl, shift_lines_app, <- IH by (done || lia).
    rewrite shift_lines_nl.
    rewrite shift_lines_indented by done.
    rewrite !shift_lines_plain_piece by done.
    rewrite <- (string_app_nil_r ">") at 4.
    rewrite shift_lines_plain_piece by done.
    by rewrite string_app_nil_r.
Qed.

End TemplateIndentation.

Lemma XMLContent_depth_shift_witness :
  let content := CTag (tag_array (number := Z) "example"
                         [CTag (tag_number "input" 3 []); CTag (tag_string "output" "toddler" [])]
                         []) in
  XMLContent content (2 + 1) = shift_lines true (XMLContent content 2).
Proof.
  intros content. apply XMLContent_depth_shift; [reflexivity | lia].
Defined.
